(** * Motion-detection filter ([filter_impl.cpp]): a shallow embedding

    The filter keeps two process-wide vectors ([pixel_states] and
    [motion_mask]) and is called once per video frame.  The embedding
    threads the two vectors explicitly through every function and
    returns the frame buffer next to them.

    Numbers.
    - [int] is [Z]; the geometry of a frame keeps every product far
      from the 32-bit limits, so no wrap-around is written out.
    - [uint8_t] is [Byte.byte].
    - A finite [float] is the rational number it denotes ([Q]).  The
      program only compares floats, takes [std::min]/[std::max] of them,
      stores constants and converts 8-bit integers to them; all of these
      are exact on finite floats, so they are the same operations on the
      denoted rationals.  The one rounding operation, the square root in
      [colorDistance], is written out with its rounding. *)

From Stdlib Require Import ZArith QArith Qminmax Lia List Bool.
From Stdlib Require Import Strings.Byte.
From stdpp Require Import base list.
Import ListNotations.

Local Open Scope Z_scope.

(** ** Floats *)

Module Float.

(** [a < b], [a <= b] on finite floats. *)
Definition ltb (a b : Q) : bool := (Qnum a * QDen b <? Qnum b * QDen a)%Z.
Definition leb (a b : Q) : bool := (Qnum a * QDen b <=? Qnum b * QDen a)%Z.

(** [std::min(a, b)] is [(b < a) ? b : a]; [std::max(a, b)] is
    [(a < b) ? b : a]. *)
Definition min (a b : Q) : Q := if ltb b a then b else a.
Definition max (a b : Q) : Q := if ltb a b then b else a.

(** Conversion of an 8-bit integer to float (exact). *)
Definition of_u8 (c : byte) : Q := inject_Z (Z.of_N (Byte.to_N c)).

(** [uint8_t(z)] for an [int] [z]: reduction modulo 256. *)
Definition u8_of_Z (z : Z) : byte :=
  match Byte.of_N (Z.to_N (z mod 256)) with
  | Some c => c
  | None => x00
  end.

(** [uint8_t(f)]: the fractional part is discarded (truncation toward
    zero). *)
Definition to_u8 (f : Q) : byte := u8_of_Z (Z.quot (Qnum f) (QDen f)).

(** [float(std::sqrt(n))] for an [int] [n]: the square root rounded to
    the nearest number with a 24-bit significand.  With [e] the
    exponent of the root, the significand is the integer nearest to
    [sqrt n * 2^(23-e)], that is to [sqrt (n * 4^(23-e))]; a tie
    cannot occur because [(m + 1/2)^2] is not an integer.  (The root
    is first rounded to 53 bits by [std::sqrt] on [double]; for square
    roots the second rounding to 24 bits gives the correctly rounded
    result.)  The arguments that occur are sums of three squares of
    differences of 8-bit values, at most 195075, for which [23 - e] is
    at least 15. *)
Definition sqrt (n : Z) : Q :=
  if n <=? 0 then 0%Q
  else
    let e := Z.log2 (Z.sqrt n) in
    let k := 23 - e in
    let s := n * 4 ^ k in
    let m := Z.sqrt s in
    let m' := if m * m + m <? s then m + 1 else m in
    Qmake m' (Z.to_pos (2 ^ k)).

End Float.

(** ** Vectors and loops *)

(** [v[i]] and [v[i] = x] on a [std::vector] indexed by an [int].  Every
    access the program makes on frames of the declared geometry is in
    range; out of range a read gives the default and a write does
    nothing. *)
Definition vget {A} (d : A) (v : list A) (i : Z) : A :=
  default d (v !! Z.to_nat i).

Definition vset {A} (v : list A) (i : Z) (x : A) : list A :=
  <[Z.to_nat i := x]> v.

(** The values [lo, lo+1, ..., hi-1] taken by the variable of
    [for (int i = lo; i < hi; ++i)]. *)
Definition range (lo hi : Z) : list Z := seqZ lo (hi - lo).

(** [for (int i = lo; i < hi; ++i) body], as a state transformer. *)
Definition for_ {S} (lo hi : Z) (body : Z -> S -> S) (s : S) : S :=
  fold_left (fun s i => body i s) (range lo hi) s.

(** ** The program *)

Record rgb := { r : byte; g : byte; b : byte }.

Record PixelState := { bg_r : Q; bg_g : Q; bg_b : Q; time : Z }.

Definition chan (c : byte) : Z := Z.of_N (Byte.to_N c).

Definition colorDistance (p1 p2 : rgb) : Q :=
  Float.sqrt ((chan (r p1) - chan (r p2)) * (chan (r p1) - chan (r p2)) +
              (chan (g p1) - chan (g p2)) * (chan (g p1) - chan (g p2)) +
              (chan (b p1) - chan (b p2)) * (chan (b p1) - chan (b p2))).

(** *** applyMorphologicalOpening *)

(** The two inner loops of a pass: the fold of [op] over the cells of
    the disk around [(x, y)], read from [temp_mask], starting at
    [init]. *)
Definition disk_fold (op : Q -> Q -> Q) (init : Q) (temp_mask : list Q)
    (width radius x y : Z) : Q :=
  for_ (- radius) (radius + 1) (fun dy =>
    for_ (- radius) (radius + 1) (fun dx acc =>
      if dx * dx + dy * dy <=? radius * radius
      then op acc (vget 0%Q temp_mask ((y + dy) * width + (x + dx)))
      else acc)) init.

(** One pass over the interior: [motion_mask[y * width + x]] is
    overwritten with the fold over the disk read from [temp_mask]. *)
Definition morph_pass (op : Q -> Q -> Q) (init : Q) (temp_mask : list Q)
    (width height radius : Z) (motion_mask : list Q) : list Q :=
  for_ radius (height - radius) (fun y =>
    for_ radius (width - radius) (fun x motion_mask =>
      vset motion_mask (y * width + x)
           (disk_fold op init temp_mask width radius x y))) motion_mask.

Definition erode (motion_mask : list Q) (width height radius : Z) : list Q :=
  let temp_mask := motion_mask in
  morph_pass Float.min 255%Q temp_mask width height radius motion_mask.

Definition dilate (motion_mask : list Q) (width height radius : Z) : list Q :=
  let temp_mask := motion_mask in
  morph_pass Float.max 0%Q temp_mask width height radius motion_mask.

Definition applyMorphologicalOpening (motion_mask : list Q)
    (width height radius : Z) : list Q :=
  dilate (erode motion_mask width height radius) width height radius.

(** *** applyHysteresisThresholding *)

(** The neighbour scan of a weak pixel.  It reads the vector as it is at
    that moment of the sweep; [existsb] stops at the first hit as the
    two [break]s do. *)
Definition strong_neighbor (motion_mask : list Q) (width height : Z)
    (high_thresh : Q) (x y : Z) : bool :=
  existsb (fun dy =>
    existsb (fun dx =>
      let ny := y + dy in
      let nx := x + dx in
      (0 <=? ny) && (ny <? height) && (0 <=? nx) && (nx <? width) &&
      Float.leb high_thresh (vget 0%Q motion_mask (ny * width + nx)))
    (range (-1) 2))
  (range (-1) 2).

(** The body of the sweep at [(x, y)]. *)
Definition hysteresis_pixel (width height : Z) (low_thresh high_thresh : Q)
    (x y : Z) (motion_mask : list Q) : list Q :=
  let value := vget 0%Q motion_mask (y * width + x) in
  if Float.leb high_thresh value then vset motion_mask (y * width + x) 1%Q
  else if Float.ltb value low_thresh then vset motion_mask (y * width + x) 0%Q
  else vset motion_mask (y * width + x)
         (if strong_neighbor motion_mask width height high_thresh x y
          then 1%Q else 0%Q).

Definition applyHysteresisThresholding (motion_mask : list Q)
    (width height : Z) (low_thresh high_thresh : Q) : list Q :=
  for_ 0 height (fun y =>
    for_ 0 width (fun x =>
      hysteresis_pixel width height low_thresh high_thresh x y)) motion_mask.

(** *** filter_impl *)

(** The process-wide vectors. *)
Record Globals := { pixel_states : list PixelState; motion_mask : list Q }.

(** The state of a freshly loaded filter. *)
Definition fresh : Globals := {| pixel_states := []; motion_mask := [] |}.

Definition zero_state : PixelState :=
  {| bg_r := 0%Q; bg_g := 0%Q; bg_b := 0%Q; time := 0 |}.

(** [((rgb * )(buffer + y * stride))[x]]: three consecutive bytes. *)
Definition pixel_at (buffer : list byte) (stride y x : Z) : rgb :=
  {| r := vget x00 buffer (y * stride + 3 * x);
     g := vget x00 buffer (y * stride + 3 * x + 1);
     b := vget x00 buffer (y * stride + 3 * x + 2) |}.

(** Lines 97-113: allocation, zeroing and seeding of [pixel_states]. *)
Definition seed_pixel (buffer : list byte) (width stride y x : Z)
    (pixel_states : list PixelState) : list PixelState :=
  let idx := y * width + x in
  let state := vget zero_state pixel_states idx in
  let pixel := pixel_at buffer stride y x in
  vset pixel_states idx
       {| bg_r := Float.of_u8 (r pixel);
          bg_g := Float.of_u8 (g pixel);
          bg_b := Float.of_u8 (b pixel);
          time := time state |}.

(** [pixel_states.resize(width * height)] allocates [width * height]
    states when the product is not negative, which is the case for every
    frame (sides not negative).  For a negative product the C++ call
    receives a huge [size_t] and throws; the model, which has no
    exceptions, allocates nothing there, and no statement below is about
    that case. *)
Definition seed (buffer : list byte) (width height stride : Z)
    : list PixelState :=
  let pixel_states := replicate (Z.to_nat (width * height)) zero_state in
  let pixel_states := map (fun _ => zero_state) pixel_states in
  for_ 0 height (fun y =>
    for_ 0 width (fun x => seed_pixel buffer width stride y x)) pixel_states.

(** Lines 124-142: the body of the Difference Detector at [(x, y)]. *)
Definition detect_pixel (buffer : list byte) (width stride y x : Z)
    (gl : Globals) : Globals :=
  let idx := y * width + x in
  let state := vget zero_state (pixel_states gl) idx in
  let pixel := pixel_at buffer stride y x in
  let distance :=
    colorDistance pixel {| r := Float.to_u8 (bg_r state);
                           g := Float.to_u8 (bg_g state);
                           b := Float.to_u8 (bg_b state) |} in
  if Float.ltb distance 25%Q then
    {| pixel_states :=
         vset (pixel_states gl) idx
              {| bg_r := bg_r state; bg_g := bg_g state; bg_b := bg_b state;
                 time := 0 |};
       motion_mask := motion_mask gl |}
  else
    let time' := time state + 1 in
    {| pixel_states :=
         vset (pixel_states gl) idx
              (if 100 <? time' then
                 {| bg_r := Float.of_u8 (r pixel);
                    bg_g := Float.of_u8 (g pixel);
                    bg_b := Float.of_u8 (b pixel);
                    time := 0 |}
               else
                 {| bg_r := bg_r state; bg_g := bg_g state;
                    bg_b := bg_b state; time := time' |});
       motion_mask := vset (motion_mask gl) idx distance |}.

(** Lines 121-144: the Difference Detector. *)
Definition detect (buffer : list byte) (width height stride : Z)
    (gl : Globals) : Globals :=
  for_ 0 height (fun y =>
    for_ 0 width (fun x => detect_pixel buffer width stride y x)) gl.

(** [uint8_t(0.5f * 255)]. *)
Definition highlight : byte := Float.to_u8 ((1 # 2) * 255)%Q.

(** Lines 156-159: the body of the Compositor at [(x, y)]. *)
Definition composite_pixel (motion_mask : list Q) (width stride y x : Z)
    (buffer : list byte) : list byte :=
  let idx := y * width + x in
  if Float.ltb 0%Q (vget 0%Q motion_mask idx) then
    vset buffer (y * stride + 3 * x)
         (Float.u8_of_Z
            (Z.min 255 (chan (r (pixel_at buffer stride y x)) + chan highlight)))
  else buffer.

(** Lines 153-161: the Compositor. *)
Definition composite (motion_mask : list Q) (width height stride : Z)
    (buffer : list byte) : list byte :=
  for_ 0 height (fun y =>
    for_ 0 width (fun x => composite_pixel motion_mask width stride y x)) buffer.

(** Lines 117-151: what a Running-state call does to the two vectors.
    [motion_mask.resize(width * height, 0.0f)] is modelled as the
    allocation in [seed], for a product that is not negative. *)
Definition alloc_mask (width height : Z) (motion_mask : list Q) : list Q :=
  match motion_mask with
  | [] => replicate (Z.to_nat (width * height)) 0%Q
  | _ => motion_mask
  end.

Definition radius_of (width height : Z) : Z :=
  Z.max 3 (Z.quot (Z.min width height) 100).

(** The frame entry point.  [pixel_stride] is not used by the code. *)
Definition filter_impl (gl : Globals) (buffer : list byte)
    (width height stride pixel_stride : Z) : Globals * list byte :=
  match pixel_states gl with
  | [] =>
      ({| pixel_states := seed buffer width height stride;
          motion_mask := motion_mask gl |}, buffer)
  | _ =>
      let gl := {| pixel_states := pixel_states gl;
                   motion_mask := alloc_mask width height (motion_mask gl) |} in
      let gl := detect buffer width height stride gl in
      let radius := radius_of width height in
      let mask := applyMorphologicalOpening (motion_mask gl) width height radius in
      let low_thresh := 4%Q in
      let high_thresh := 30%Q in
      let mask :=
        applyHysteresisThresholding mask width height low_thresh high_thresh in
      ({| pixel_states := pixel_states gl; motion_mask := mask |},
       composite mask width height stride buffer)
  end.

(** A run of the filter over a sequence of frames of one geometry. *)
Definition run (width height stride : Z) (frames : list (list byte))
    (gl : Globals) : Globals :=
  fold_left (fun gl buffer => fst (filter_impl gl buffer width height stride 3))
            frames gl.

(** ** Notions used in the statements and proofs *)

(** *** Loops as passes over cells *)

(** The cells [(y, x)] visited by two nested loops, in the order of the
    visits. *)
Definition cells (ylo yhi xlo xhi : Z) : list (Z * Z) :=
  range ylo yhi ≫= fun y => pair y <$> range xlo xhi.

(** The position of a cell in a row-major vector. *)
Definition idx_of (width : Z) (c : Z * Z) : nat := Z.to_nat (c.1 * width + c.2).

(** A pass that rewrites one location per cell: the body is run on the
    cells in order. *)
Definition pass {S} (body : Z * Z -> S -> S) (l : list (Z * Z)) (s : S) : S :=
  fold_left (fun s c => body c s) l s.

(** The state of a pass that started in [s0], after the cells [visited]:
    [Inv] holds, the cells visited hold their final contents ([Post])
    and every other location still holds what it held in [s0]. *)
Definition midway {S C} (loc : Z * Z -> nat) (obs : S -> nat -> C)
    (Inv : S -> Prop) (Post : Z * Z -> C -> Prop) (s0 : S)
    (visited : list (Z * Z)) (s : S) : Prop :=
  Inv s /\
  (forall n, n ∉ loc <$> visited -> obs s n = obs s0 n) /\
  (forall c, c ∈ visited -> Post c (obs s (loc c))).

(** [(y', x')] is visited before [(y, x)] in a row-major sweep. *)
Definition visited_before (y x y' x' : Z) : bool :=
  (y' <? y) || ((y' =? y) && (x' <? x)).

(** *** The Difference Detector on one pixel *)

(** The stored estimate as the detector sees it. *)
Definition bg_rgb (state : PixelState) : rgb :=
  {| r := Float.to_u8 (bg_r state);
     g := Float.to_u8 (bg_g state);
     b := Float.to_u8 (bg_b state) |}.

(** The state whose estimate is the colour of a pixel. *)
Definition rgb_state (pixel : rgb) (t : Z) : PixelState :=
  {| bg_r := Float.of_u8 (r pixel);
     bg_g := Float.of_u8 (g pixel);
     bg_b := Float.of_u8 (b pixel);
     time := t |}.

(** What one detector step makes of a [PixelState] and of the mask value
    of the same pixel. *)
Definition next_state (pixel : rgb) (state : PixelState) : PixelState :=
  if Float.ltb (colorDistance pixel (bg_rgb state)) 25%Q then
    {| bg_r := bg_r state; bg_g := bg_g state; bg_b := bg_b state; time := 0 |}
  else if 100 <? time state + 1 then rgb_state pixel 0
  else {| bg_r := bg_r state; bg_g := bg_g state; bg_b := bg_b state;
          time := time state + 1 |}.

Definition next_mask (pixel : rgb) (state : PixelState) (old : Q) : Q :=
  if Float.ltb (colorDistance pixel (bg_rgb state)) 25%Q then old
  else colorDistance pixel (bg_rgb state).

(** The two vectors after the Difference Detector step of a
    Running-state call. *)
Definition after_detector (gl : Globals) (buffer : list byte)
    (width height stride : Z) : Globals :=
  detect buffer width height stride
         {| pixel_states := pixel_states gl;
            motion_mask := alloc_mask width height (motion_mask gl) |}.

(** *** Invariants of a stored state *)

(** The range of the counter between calls. *)
Definition counter_ok (state : PixelState) : Prop := 0 <= time state <= 100.

(** A stored channel estimate that is an 8-bit integer: truncating it to
    [uint8_t] and converting back gives the same float. *)
Definition stored_u8 (q : Q) : Prop :=
  (exists z : Z, 0 <= z <= 255 /\ q = inject_Z z) /\
  Float.of_u8 (Float.to_u8 q) = q.

Definition state_ok (state : PixelState) : Prop :=
  counter_ok state /\
  stored_u8 (bg_r state) /\ stored_u8 (bg_g state) /\ stored_u8 (bg_b state).

(** *** The disk of the Morphological Filter *)

(** The offsets [(dy, dx)] of the disk of a radius, the mask values a
    pass reads through them around [(x, y)], and the least of a list of
    values. *)
Definition disk_offsets (radius : Z) : list (Z * Z) :=
  List.filter (fun c => c.2 * c.2 + c.1 * c.1 <=? radius * radius)
              (cells (- radius) (radius + 1) (- radius) (radius + 1)).

Definition disk_values (temp_mask : list Q) (width radius x y : Z) : list Q :=
  map (fun c => vget 0%Q temp_mask ((y + c.1) * width + (x + c.2)))
      (disk_offsets radius).

Definition minimum (l : list Q) : option Q :=
  match l with
  | [] => None
  | q :: l' => Some (fold_left Float.min l' q)
  end.

(** The eroded value of an interior pixel as the specification words
    it: the minimum value found within the disk around the pixel. *)
Definition spec_erosion_value (temp_mask : list Q) (width radius x y : Z)
    : option Q :=
  minimum (disk_values temp_mask width radius x y).

(** *** The sweep of the Hysteresis Stabilizer *)

(** The three branches of the body of the sweep (lines 65, 67 and 69),
    in the order the code tests them: strong when [value >= high_thresh],
    else absent when [value < low_thresh], else weak. *)
Inductive motion_class : Type := Strong | Absent | Weak.

Definition classify (low_thresh high_thresh value : Q) : motion_class :=
  if Float.leb high_thresh value then Strong
  else if Float.ltb value low_thresh then Absent
  else Weak.

(** What the sweep computes at a pixel, in terms of the mask before the
    sweep (for [high_thresh] above 1): of the 8 neighbours only the four
    visited after the pixel - east, south-west, south, south-east - can
    promote it. *)
Definition later_neighbors : list (Z * Z) := [(0, 1); (1, -1); (1, 0); (1, 1)].

Definition strong_at (motion_mask : list Q) (width height : Z)
    (high_thresh : Q) (x y : Z) (d : Z * Z) : bool :=
  let ny := y + d.1 in
  let nx := x + d.2 in
  (0 <=? ny) && (ny <? height) && (0 <=? nx) && (nx <? width) &&
  Float.leb high_thresh (vget 0%Q motion_mask (ny * width + nx)).

Definition hysteresis_value (motion_mask : list Q) (width height : Z)
    (low_thresh high_thresh : Q) (x y : Z) : Q :=
  let value := vget 0%Q motion_mask (y * width + x) in
  if Float.leb high_thresh value then 1%Q
  else if Float.ltb value low_thresh then 0%Q
  else if existsb (strong_at motion_mask width height high_thresh x y)
                  later_neighbors
       then 1%Q else 0%Q.

(** *** Sample frames *)

(** A frame of [n] pixels without padding, every channel of every pixel
    [c]. *)
Definition gray (n : nat) (c : byte) : list byte := replicate (3 * n) c.

Definition black_1x1 : list byte := [x00; x00; x00].
Definition white_1x1 : list byte := [xff; xff; xff].

(** A 2x1 frame with stride 8 (two bytes of padding), and a second one
    within distance 25 of it at both pixels. *)
Definition frame_2x1 : list byte := [x0a; x14; x1e; x28; x32; x3c; xff; xff].
Definition frame_2x1' : list byte := [x0b; x14; x1e; x28; x32; x3d; x00; x00].

(** A 2x1 frame with stride 8 and a successor whose first pixel has
    changed. *)
Definition frame_a : list byte := [x10; x20; x30; x40; x50; x60; xaa; xbb].
Definition frame_b : list byte := [xf0; x20; x30; x40; x50; x60; xcc; xdd].

(** Two 2x1 frames without padding: red channels 50 and 26, in either
    order. *)
Definition frame_50_26 : list byte := [x32; x00; x00; x1a; x00; x00].
Definition frame_26_50 : list byte := [x1a; x00; x00; x32; x00; x00].

(** *** The squared distance *)

(** The integer under the square root of [colorDistance]. *)
Definition sqdist (p1 p2 : rgb) : Z :=
  (chan (r p1) - chan (r p2)) * (chan (r p1) - chan (r p2)) +
  (chan (g p1) - chan (g p2)) * (chan (g p1) - chan (g p2)) +
  (chan (b p1) - chan (b p2)) * (chan (b p1) - chan (b p2)).

(** *** Masks that differ only below the low threshold *)

(** Two intensities that are the same, or are both below the low
    threshold 4 of the filter. *)
Definition same_or_low (a c : Q) : Prop :=
  a = c \/ ((a < 4)%Q /\ (c < 4)%Q).

(** Two masks whose entries are so related at every pixel of the
    frame. *)
Definition agree_above_low (width height : Z) (m m' : list Q) : Prop :=
  forall y x, 0 <= y < height -> 0 <= x < width ->
    same_or_low (vget 0%Q m (y * width + x)) (vget 0%Q m' (y * width + x)).

(** * The model on small inputs *)

Example sqrt_exact_squares :
  (Float.sqrt 625 == 25)%Q /\ (Float.sqrt 900 == 30)%Q /\ Float.sqrt 0 = 0%Q.
Proof. vm_compute. by repeat split. Qed.

(** [sqrt 2] and the largest distance, [sqrt (3 * 255^2)], as floats. *)
Example sqrt_rounded :
  Float.sqrt 2 = (11863283 # 8388608)%Q /\
  Float.sqrt 195075 = (14472739 # 32768)%Q.
Proof. vm_compute. by split. Qed.

Example highlight_is_127 : highlight = x7f.
Proof. reflexivity. Qed.

(** The first call seeds, the second detects: a white pixel on a black
    background is at distance 441.67, is strong, and its red channel
    (already 255) saturates. *)
Example run_black_white :
  filter_impl fresh black_1x1 1 1 3 3 =
    ({| pixel_states := [zero_state]; motion_mask := [] |}, black_1x1) /\
  filter_impl (run 1 1 3 [black_1x1] fresh) white_1x1 1 1 3 3 =
    ({| pixel_states :=
          [{| bg_r := 0; bg_g := 0; bg_b := 0; time := 1 |}];
        motion_mask := [1%Q] |}, white_1x1).
Proof. vm_compute. by split. Qed.

(** A changed pixel is highlighted, padding and the other pixel stay. *)
Example run_frame_a_b :
  (filter_impl (run 2 1 8 [frame_a] fresh) frame_b 2 1 8 3).2 =
  [xff; x20; x30; x40; x50; x60; xcc; xdd].
Proof. vm_compute. reflexivity. Qed.

(** The opening on a 9x9 mask with a single positive entry removes it. *)
Example opening_removes_speck :
  applyMorphologicalOpening (<[40%nat := 100%Q]> (replicate 81 0%Q)) 9 9 3 =
  replicate 81 0%Q.
Proof. vm_compute. reflexivity. Qed.

(** * Reasoning about vectors and loops *)

Section vectors.
Context {A : Type}.
Implicit Types (v : list A) (i j : Z) (x d : A).

Lemma length_vset v i x : length (vset v i x) = length v.
Proof. apply length_insert. Qed.

Lemma vget_vset_eq d v i x :
  (Z.to_nat i < length v)%nat -> vget d (vset v i x) i = x.
Proof.
  intros Hi. unfold vget, vset.
  by rewrite list_lookup_insert_eq.
Qed.

Lemma vget_vset_ne d v i j x :
  Z.to_nat i <> Z.to_nat j -> vget d (vset v i x) j = vget d v j.
Proof.
  intros Hne. unfold vget, vset.
  by rewrite list_lookup_insert_ne.
Qed.

Lemma vget_replicate d n x i :
  (Z.to_nat i < n)%nat -> vget d (replicate n x) i = x.
Proof.
  intros Hi. unfold vget.
  by rewrite lookup_replicate_2.
Qed.

Lemma vget_lookup d v i x : v !! Z.to_nat i = Some x -> vget d v i = x.
Proof. unfold vget. by intros ->. Qed.
End vectors.

Lemma elem_of_range lo hi i : i ∈ range lo hi <-> lo <= i < hi.
Proof. unfold range. rewrite elem_of_seqZ. lia. Qed.

Lemma NoDup_range lo hi : NoDup (range lo hi).
Proof. apply NoDup_seqZ. Qed.

(** An invariant of the body is an invariant of the loop. *)
Lemma for_invariant {S} (P : S -> Prop) lo hi (body : Z -> S -> S) s :
  P s ->
  (forall i s', lo <= i < hi -> P s' -> P (body i s')) ->
  P (for_ lo hi body s).
Proof.
  unfold for_. intros Hs Hbody.
  assert (Hin : forall i, i ∈ range lo hi -> lo <= i < hi)
    by (intros i; apply elem_of_range).
  revert s Hs. induction (range lo hi) as [|i l IH]; intros s Hs; simpl.
  - exact Hs.
  - apply IH.
    + intros k Hk. apply Hin. by right.
    + apply Hbody; [apply Hin; by left | exact Hs].
Qed.

Lemma elem_of_cells ylo yhi xlo xhi y x :
  (y, x) ∈ cells ylo yhi xlo xhi <-> ylo <= y < yhi /\ xlo <= x < xhi.
Proof.
  unfold cells. rewrite list_elem_of_bind. split.
  - intros (y' & Hx & Hy). apply list_elem_of_fmap in Hx as (x' & Heq & Hx).
    inversion Heq; subst. by rewrite <- !elem_of_range.
  - intros [Hy Hx]. exists y. split.
    + apply list_elem_of_fmap. exists x. by rewrite elem_of_range.
    + by apply elem_of_range.
Qed.

Lemma NoDup_cells ylo yhi xlo xhi : NoDup (cells ylo yhi xlo xhi).
Proof.
  unfold cells. apply NoDup_bind.
  - intros y1 y2 [y x] _ _ H1 H2.
    apply list_elem_of_fmap in H1 as (? & H1 & _).
    apply list_elem_of_fmap in H2 as (? & H2 & _). congruence.
  - intros y _. apply NoDup_fmap_2; [|apply NoDup_range].
    intros ? ?; congruence.
  - apply NoDup_range.
Qed.

(** Two nested loops are one pass over their cells. *)
Lemma nested_for_cells {S} ylo yhi xlo xhi (body : Z -> Z -> S -> S) s :
  for_ ylo yhi (fun y => for_ xlo xhi (fun x => body y x)) s =
  fold_left (fun s c => body c.1 c.2 s) (cells ylo yhi xlo xhi) s.
Proof.
  unfold for_, cells. revert s.
  induction (range ylo yhi) as [|y l IH]; intros s; simpl; [done|].
  rewrite fold_left_app, IH. f_equal.
  generalize (range xlo xhi) as xs. clear. intros xs. revert s.
  induction xs as [|x xs IH]; intros s; simpl; [done|]. apply IH.
Qed.

(** The invariant of a pass: the cells visited hold their final
    contents, every other location is as the pass found it. *)
Section cell_pass.
Context {S C : Type}.
Variable loc : Z * Z -> nat.
Variable obs : S -> nat -> C.
Variable body : Z * Z -> S -> S.
Variable Inv : S -> Prop.
Variable Post : Z * Z -> C -> Prop.
Variable s0 : S.

Local Abbreviation pass := (pass body).
Local Abbreviation midway := (midway loc obs Inv Post s0).

Hypothesis frame : forall c s n, n <> loc c -> obs (body c s) n = obs s n.

Lemma pass_untouched l s n :
  n ∉ loc <$> l -> obs (pass l s) n = obs s n.
Proof.
  revert s. induction l as [|c l IH]; intros s Hn; simpl; [done|].
  rewrite fmap_cons, not_elem_of_cons in Hn. destruct Hn as [Hc Hl].
  rewrite IH by done. by apply frame.
Qed.

Lemma pass_post l :
  NoDup (loc <$> l) ->
  Inv s0 ->
  (forall l1 c l2 s,
      l = l1 ++ c :: l2 -> loc c ∉ loc <$> l1 -> midway l1 s ->
      Inv (body c s) /\ Post c (obs (body c s) (loc c))) ->
  midway l (pass l s0).
Proof.
  induction l as [|c l IH] using rev_ind; intros Hnd Hinv Hstep.
  - split; [done|]. split; [done|]. intros c Hc. by apply elem_of_nil in Hc.
  - rewrite fmap_app in Hnd. apply NoDup_app in Hnd as (Hnd & Hc & _).
    assert (Hfresh : loc c ∉ loc <$> l).
    { intros Hin. apply (Hc _ Hin). simpl. by left. }
    destruct IH as (Hi & Hun & Hpost); [done | done | |].
    { intros l1 c' l2 s Hl. apply (Hstep l1 c' (l2 ++ [c])).
      by rewrite Hl, <- app_assoc. }
    unfold pass in *. rewrite fold_left_app. simpl.
    destruct (Hstep l c [] (fold_left (fun s c => body c s) l s0))
      as [Hi' Hp']; [done | done | by repeat split |].
    split; [done|]. split.
    + intros n Hn. rewrite fmap_app, not_elem_of_app in Hn.
      destruct Hn as [Hn Hn']. simpl in Hn'.
      rewrite not_elem_of_cons in Hn'. rewrite frame by tauto. by apply Hun.
    + intros c' [Hc'|Hc']%elem_of_app.
      * rewrite frame; [by apply Hpost|].
        intros Heq. apply Hfresh. rewrite <- Heq.
        by apply list_elem_of_fmap_2.
      * apply list_elem_of_singleton in Hc'. by subst.
Qed.
End cell_pass.

(** Row-major indices of distinct cells of a row of [width] cells are
    distinct. *)
Lemma idx_inj width y x y' x' :
  0 <= y -> 0 <= y' -> 0 <= x < width -> 0 <= x' < width ->
  Z.to_nat (y * width + x) = Z.to_nat (y' * width + x') ->
  y = y' /\ x = x'.
Proof.
  intros Hy Hy' Hx Hx' Heq.
  assert (y * width + x = y' * width + x') as Heq' by nia.
  assert (y = y') by nia. subst. lia.
Qed.

Lemma NoDup_idx width ylo yhi xlo xhi :
  0 <= ylo -> 0 <= xlo -> xhi <= width ->
  NoDup (idx_of width <$> cells ylo yhi xlo xhi).
Proof.
  intros Hy Hx Hw. apply NoDup_fmap_2_strong; [|apply NoDup_cells].
  intros [y x] [y' x'] [? ?]%elem_of_cells [? ?]%elem_of_cells Heq.
  unfold idx_of in Heq. simpl in Heq.
  apply idx_inj in Heq as [-> ->]; [done|lia..].
Qed.

Lemma idx_lt width height y x :
  0 <= y < height -> 0 <= x < width ->
  (Z.to_nat (y * width + x) < Z.to_nat (width * height))%nat.
Proof. intros Hy Hx. apply Z2Nat.inj_lt; nia. Qed.

(** * Facts about the numbers *)

Lemma ltb_lt a b : Float.ltb a b = true <-> (a < b)%Q.
Proof. unfold Float.ltb, Qlt. apply Z.ltb_lt. Qed.

Lemma leb_le a b : Float.leb a b = true <-> (a <= b)%Q.
Proof. unfold Float.leb, Qle. apply Z.leb_le. Qed.

Lemma ltb_ge a b : Float.ltb a b = false <-> (b <= a)%Q.
Proof. unfold Float.ltb, Qle. rewrite Z.ltb_ge. lia. Qed.

Lemma leb_gt a b : Float.leb a b = false <-> (b < a)%Q.
Proof. unfold Float.leb, Qlt. rewrite Z.leb_gt. lia. Qed.

Lemma chan_range c : 0 <= chan c <= 255.
Proof.
  unfold chan. pose proof (Byte.to_N_bounded c) as Hc.
  split; [apply N2Z.is_nonneg|]. change 255 with (Z.of_N 255). by apply N2Z.inj_le.
Qed.

Lemma chan_inj c c' : chan c = chan c' -> c = c'.
Proof.
  unfold chan. intros Heq%N2Z.inj.
  pose proof (Byte.of_to_N c) as H1. pose proof (Byte.of_to_N c') as H2.
  congruence.
Qed.

Lemma chan_u8_of_Z z : chan (Float.u8_of_Z z) = z mod 256.
Proof.
  unfold chan, Float.u8_of_Z.
  pose proof (Z.mod_pos_bound z 256 eq_refl) as Hz.
  destruct (Byte.of_N (Z.to_N (z mod 256))) as [c|] eqn:Hc.
  - apply Byte.to_of_N in Hc. rewrite Hc. apply Z2N.id. lia.
  - apply Byte.of_N_None_iff in Hc. lia.
Qed.

Lemma u8_of_Z_chan c : Float.u8_of_Z (chan c) = c.
Proof.
  apply chan_inj. rewrite chan_u8_of_Z.
  apply Z.mod_small. pose proof (chan_range c). lia.
Qed.

(** An 8-bit value survives the trip through [float] and back. *)
Lemma to_u8_of_u8 c : Float.to_u8 (Float.of_u8 c) = c.
Proof.
  unfold Float.to_u8, Float.of_u8. simpl.
  rewrite Z.quot_1_r. apply u8_of_Z_chan.
Qed.

Lemma chan_highlight : chan highlight = 127.
Proof. reflexivity. Qed.

(** * The Difference Detector, cell by cell *)

Lemma vset_vget {A} (d : A) (v : list A) i : vset v i (vget d v i) = v.
Proof.
  unfold vset, vget. destruct (v !! Z.to_nat i) as [x|] eqn:Hx; simpl.
  - by apply list_insert_id.
  - apply list_insert_ge. by apply lookup_ge_None.
Qed.

Lemma detect_pixel_eq buffer width stride y x gl :
  detect_pixel buffer width stride y x gl =
  let idx := y * width + x in
  let pixel := pixel_at buffer stride y x in
  let state := vget zero_state (pixel_states gl) idx in
  {| pixel_states := vset (pixel_states gl) idx (next_state pixel state);
     motion_mask :=
       vset (motion_mask gl) idx
            (next_mask pixel state (vget 0%Q (motion_mask gl) idx)) |}.
Proof.
  unfold detect_pixel, next_state, next_mask, bg_rgb, rgb_state. simpl.
  destruct (Float.ltb _ _); [by rewrite vset_vget|].
  by destruct (100 <? _).
Qed.

Section detect_cells.
Variables (buffer : list byte) (width height stride : Z) (gl0 : Globals).

Let obs (gl : Globals) (n : nat) : PixelState * Q :=
  (default zero_state (pixel_states gl !! n),
   default 0%Q (motion_mask gl !! n)).

Let body (c : Z * Z) : Globals -> Globals :=
  detect_pixel buffer width stride c.1 c.2.

Let Inv (gl : Globals) : Prop :=
  length (pixel_states gl) = length (pixel_states gl0) /\
  length (motion_mask gl) = length (motion_mask gl0).

Let Post (c : Z * Z) (v : PixelState * Q) : Prop :=
  let pixel := pixel_at buffer stride c.1 c.2 in
  let old := obs gl0 (idx_of width c) in
  v.1 = next_state pixel old.1 /\
  ((idx_of width c < length (motion_mask gl0))%nat ->
   v.2 = next_mask pixel old.1 old.2).

Hypothesis states_len :
  (Z.to_nat (width * height) <= length (pixel_states gl0))%nat.

Lemma detect_midway :
  midway (idx_of width) obs Inv Post gl0
         (cells 0 height 0 width) (detect buffer width height stride gl0).
Proof.
  unfold detect.
  rewrite (nested_for_cells 0 height 0 width (detect_pixel buffer width stride)).
  apply (pass_post (idx_of width) obs body Inv Post gl0).
  - intros c gl n Hn. unfold body, obs. rewrite detect_pixel_eq. simpl.
    unfold vset. by rewrite !list_lookup_insert_ne.
  - by apply NoDup_idx.
  - done.
  - intros l1 [y x] l2 gl Hl Hfresh (Hinv & Hun & _).
    assert ((y, x) ∈ cells 0 height 0 width) as [Hy Hx]%elem_of_cells
      by (rewrite Hl, elem_of_app; right; by left).
    destruct Hinv as [Hps Hmm].
    pose proof (idx_lt width height y x Hy Hx) as Hlt.
    unfold body. rewrite detect_pixel_eq. simpl. split.
    + unfold Inv. simpl. by rewrite !length_vset.
    + specialize (Hun _ Hfresh). unfold obs, idx_of in Hun. simpl in Hun.
      inversion Hun as [[Hs Hm]].
      unfold Post, obs. simpl. unfold vset, vget, idx_of. simpl. split.
      * rewrite list_lookup_insert_eq by lia. simpl. by rewrite Hs.
      * intros Hlt'. rewrite list_lookup_insert_eq by lia. simpl.
        by rewrite Hs, Hm.
Qed.

(** After the detector, the state and the mask value of every pixel
    are those of one step on what the pixel held before. *)
Lemma detect_cell y x :
  0 <= y < height -> 0 <= x < width ->
  let gl' := detect buffer width height stride gl0 in
  let idx := y * width + x in
  let pixel := pixel_at buffer stride y x in
  let state := vget zero_state (pixel_states gl0) idx in
  vget zero_state (pixel_states gl') idx = next_state pixel state /\
  ((Z.to_nat idx < length (motion_mask gl0))%nat ->
   vget 0%Q (motion_mask gl') idx =
     next_mask pixel state (vget 0%Q (motion_mask gl0) idx)).
Proof.
  intros Hy Hx. destruct detect_midway as (_ & _ & Hpost).
  assert ((y, x) ∈ cells 0 height 0 width) as Hin by by apply elem_of_cells.
  apply (Hpost (y, x) Hin).
Qed.

Lemma detect_length :
  let gl' := detect buffer width height stride gl0 in
  length (pixel_states gl') = length (pixel_states gl0) /\
  length (motion_mask gl') = length (motion_mask gl0).
Proof. by destruct detect_midway as (Hinv & _). Qed.
End detect_cells.

(** * Seeding, cell by cell *)

Lemma map_const_replicate {A} n (x : A) :
  map (fun _ => x) (replicate n x) = replicate n x.
Proof. induction n as [|n IH]; simpl; [done|]. by rewrite IH. Qed.

Section seed_cells.
Variables (buffer : list byte) (width height stride : Z).

Let zeros : list PixelState := replicate (Z.to_nat (width * height)) zero_state.
Let obs (ps : list PixelState) (n : nat) : PixelState :=
  default zero_state (ps !! n).
Let body (c : Z * Z) : list PixelState -> list PixelState :=
  seed_pixel buffer width stride c.1 c.2.
Let Inv (ps : list PixelState) : Prop := length ps = Z.to_nat (width * height).
Let Post (c : Z * Z) (v : PixelState) : Prop :=
  v = rgb_state (pixel_at buffer stride c.1 c.2) 0.

Lemma seed_midway :
  midway (idx_of width) obs Inv Post zeros
         (cells 0 height 0 width) (seed buffer width height stride).
Proof.
  unfold seed. rewrite map_const_replicate.
  rewrite (nested_for_cells 0 height 0 width (seed_pixel buffer width stride)).
  apply (pass_post (idx_of width) obs body Inv Post zeros).
  - intros c ps n Hn. unfold body, obs, seed_pixel, vset.
    by rewrite list_lookup_insert_ne.
  - by apply NoDup_idx.
  - apply length_replicate.
  - intros l1 [y x] l2 ps Hl Hfresh (Hinv & Hun & _).
    assert ((y, x) ∈ cells 0 height 0 width) as [Hy Hx]%elem_of_cells
      by (rewrite Hl, elem_of_app; right; by left).
    pose proof (idx_lt width height y x Hy Hx) as Hlt.
    unfold body, seed_pixel. simpl. split.
    + unfold Inv. by rewrite length_vset.
    + specialize (Hun _ Hfresh). unfold obs, idx_of in Hun. simpl in Hun.
      unfold Post, obs, vset, vget, idx_of, rgb_state. simpl.
      rewrite list_lookup_insert_eq by (unfold Inv in Hinv; lia). simpl.
      rewrite Hun. unfold zeros. by rewrite lookup_replicate_2.
Qed.

Lemma seed_length :
  length (seed buffer width height stride) = Z.to_nat (width * height).
Proof. by destruct seed_midway as (Hinv & _). Qed.

Lemma seed_cell y x :
  0 <= y < height -> 0 <= x < width ->
  vget zero_state (seed buffer width height stride) (y * width + x) =
  rgb_state (pixel_at buffer stride y x) 0.
Proof.
  intros Hy Hx. destruct seed_midway as (_ & _ & Hpost).
  apply (Hpost (y, x)). by apply elem_of_cells.
Qed.
End seed_cells.

(** * The first frame *)

(** C5.  On the first frame (the [pixel_states] vector is empty) the
    call seeds the estimate of every pixel with the colour of that pixel
    in the frame and counter 0, leaves the mask as it was (none is
    computed) and returns the frame buffer unmodified. *)
Theorem first_frame_seeds gl buffer width height stride pixel_stride :
  pixel_states gl = [] ->
  let out := filter_impl gl buffer width height stride pixel_stride in
  out.2 = buffer /\
  motion_mask out.1 = motion_mask gl /\
  length (pixel_states out.1) = Z.to_nat (width * height) /\
  forall y x, 0 <= y < height -> 0 <= x < width ->
    let state := vget zero_state (pixel_states out.1) (y * width + x) in
    let pixel := pixel_at buffer stride y x in
    bg_r state = Float.of_u8 (r pixel) /\
    bg_g state = Float.of_u8 (g pixel) /\
    bg_b state = Float.of_u8 (b pixel) /\
    time state = 0.
Proof.
  intros Hempty. unfold filter_impl. rewrite Hempty. simpl.
  split; [done|]. split; [done|]. split; [apply seed_length|].
  intros y x Hy Hx. by rewrite seed_cell.
Qed.

Lemma first_frame_seeds_witness :
  let out := filter_impl fresh frame_2x1 2 1 8 3 in
  out.2 = frame_2x1 /\
  motion_mask out.1 = [] /\
  length (pixel_states out.1) = 2%nat /\
  forall y x, 0 <= y < 1 -> 0 <= x < 2 ->
    let state := vget zero_state (pixel_states out.1) (y * 2 + x) in
    let pixel := pixel_at frame_2x1 8 y x in
    bg_r state = Float.of_u8 (r pixel) /\
    bg_g state = Float.of_u8 (g pixel) /\
    bg_b state = Float.of_u8 (b pixel) /\
    time state = 0.
Proof. apply (first_frame_seeds fresh frame_2x1 2 1 8 3). reflexivity. Defined.

(** * Invariants of the stored states *)

Lemma stored_u8_of_u8 c : stored_u8 (Float.of_u8 c).
Proof.
  split.
  - exists (chan c). split; [apply chan_range | done].
  - by rewrite to_u8_of_u8.
Qed.

Lemma state_ok_zero : state_ok zero_state.
Proof.
  unfold state_ok, counter_ok. simpl. split; [lia|].
  change 0%Q with (Float.of_u8 x00). auto using stored_u8_of_u8.
Qed.

Lemma state_ok_rgb_state pixel t :
  0 <= t <= 100 -> state_ok (rgb_state pixel t).
Proof.
  intros Ht. unfold state_ok, counter_ok. simpl.
  auto using stored_u8_of_u8.
Qed.

Lemma state_ok_next_state pixel state :
  state_ok state -> state_ok (next_state pixel state).
Proof.
  intros (Ht & Hr & Hg & Hb). unfold counter_ok in Ht. unfold next_state.
  destruct (Float.ltb _ _).
  - unfold state_ok, counter_ok. simpl. split; [lia | auto].
  - destruct (100 <? time state + 1) eqn:Hlt.
    + apply state_ok_rgb_state. lia.
    + apply Z.ltb_ge in Hlt.
      unfold state_ok, counter_ok. simpl. split; [lia | auto].
Qed.

Lemma Forall_vset {A} (P : A -> Prop) v i x :
  Forall P v -> P x -> Forall P (vset v i x).
Proof. intros Hv Hx. by apply Forall_insert. Qed.

Lemma Forall_vget {A} (P : A -> Prop) d v i :
  Forall P v -> P d -> P (vget d v i).
Proof.
  intros Hv Hd. unfold vget.
  destruct (v !! Z.to_nat i) as [x|] eqn:Hx; simpl; [|done].
  eapply Forall_lookup_1; eauto.
Qed.

Lemma seed_state_ok buffer width height stride :
  Forall state_ok (seed buffer width height stride).
Proof.
  unfold seed. rewrite map_const_replicate.
  apply for_invariant.
  - apply Forall_replicate, state_ok_zero.
  - intros y ps _ Hps. apply for_invariant; [done|].
    intros x ps' _ Hps'. unfold seed_pixel.
    apply Forall_vset; [done|].
    pose proof (Forall_vget state_ok zero_state ps' (y * width + x) Hps'
                  state_ok_zero) as (Ht & _).
    by apply state_ok_rgb_state.
Qed.

Lemma detect_state_ok buffer width height stride gl :
  Forall state_ok (pixel_states gl) ->
  Forall state_ok (pixel_states (detect buffer width height stride gl)).
Proof.
  intros Hgl. unfold detect.
  apply (for_invariant (fun gl => Forall state_ok (pixel_states gl))); [done|].
  intros y gl1 _ Hgl1.
  apply (for_invariant (fun gl => Forall state_ok (pixel_states gl))); [done|].
  intros x gl2 _ Hgl2. rewrite detect_pixel_eq. simpl.
  apply Forall_vset; [done|].
  apply state_ok_next_state, Forall_vget; [done | apply state_ok_zero].
Qed.

Lemma filter_impl_state_ok gl buffer width height stride pixel_stride :
  Forall state_ok (pixel_states gl) ->
  Forall state_ok
    (pixel_states (filter_impl gl buffer width height stride pixel_stride).1).
Proof.
  intros Hgl. unfold filter_impl.
  destruct (pixel_states gl) as [|st ps] eqn:Hps; simpl.
  - apply seed_state_ok.
  - by apply detect_state_ok.
Qed.

Lemma run_state_ok width height stride frames gl :
  Forall state_ok (pixel_states gl) ->
  Forall state_ok (pixel_states (run width height stride frames gl)).
Proof.
  unfold run. revert gl.
  induction frames as [|buffer frames IH]; intros gl Hgl; simpl; [done|].
  by apply IH, filter_impl_state_ok.
Qed.

(** C9.  After every completed call the counter of every pixel lies
    between 0 and 100: whatever frames the filter has been given since
    it was loaded, no stored counter is outside that range. *)
Theorem counter_range width height stride frames :
  Forall counter_ok (pixel_states (run width height stride frames fresh)).
Proof.
  eapply Forall_impl; [apply run_state_ok; constructor|].
  by intros state (Ht & _).
Qed.

(** C10.  Every stored background channel estimate is an integer between
    0 and 255, and truncating it to 8 bits before the distance is
    computed does not change it. *)
Theorem estimates_are_u8 width height stride frames :
  Forall (fun state =>
            stored_u8 (bg_r state) /\ stored_u8 (bg_g state) /\
            stored_u8 (bg_b state))
         (pixel_states (run width height stride frames fresh)).
Proof.
  eapply Forall_impl; [apply run_state_ok; constructor|].
  by intros state (_ & H).
Qed.

(** * The pipeline on an all-zero mask *)

Lemma vget_zeros n i : vget 0%Q (replicate n 0%Q) i = 0%Q.
Proof.
  unfold vget. destruct (replicate n 0%Q !! Z.to_nat i) as [q|] eqn:Hq; [|done].
  by apply lookup_replicate_1 in Hq as [-> _].
Qed.

Lemma vset_zeros n i : vset (replicate n 0%Q) i 0%Q = replicate n 0%Q.
Proof. apply insert_replicate. Qed.

(** The running minimum over the disk is 0 as soon as the centre of the
    disk has been read. *)
Lemma disk_fold_min_zeros n width radius x y :
  0 <= radius ->
  disk_fold Float.min 255%Q (replicate n 0%Q) width radius x y = 0%Q.
Proof.
  intros Hr. unfold disk_fold.
  rewrite (nested_for_cells (- radius) (radius + 1) (- radius) (radius + 1)
             (fun dy dx acc =>
                if dx * dx + dy * dy <=? radius * radius
                then Float.min acc
                       (vget 0%Q (replicate n 0%Q) ((y + dy) * width + (x + dx)))
                else acc)).
  set (step := fun (s : Q) (c : Z * Z) => _).
  assert (Hzero : forall l, fold_left step l 0%Q = 0%Q).
  { induction l as [|c l IH]; simpl; [done|].
    replace (step 0%Q c) with 0%Q; [done|].
    unfold step. rewrite vget_zeros. by destruct (_ <=? _). }
  assert (Hkeep : forall l acc,
             acc = 0%Q \/ acc = 255%Q ->
             fold_left step l acc = 0%Q \/ fold_left step l acc = 255%Q).
  { induction l as [|c l IH]; intros acc Hacc; simpl; [done|].
    apply IH. unfold step. rewrite vget_zeros.
    destruct (_ <=? _); [|done]. left. by destruct Hacc as [-> | ->]. }
  assert ((0, 0) ∈ cells (- radius) (radius + 1) (- radius) (radius + 1))
    as (l1 & l2 & ->)%list_elem_of_split by (apply elem_of_cells; lia).
  rewrite fold_left_app. simpl.
  replace (step (fold_left step l1 255%Q) (0, 0)) with 0%Q; [apply Hzero|].
  assert (Hdisk : (0 * 0 + 0 * 0 <=? radius * radius) = true)
    by (apply Z.leb_le; nia).
  destruct (Hkeep l1 255%Q) as [Hk|Hk]; [by right|..];
    rewrite Hk; unfold step; simpl; by rewrite vget_zeros, Hdisk.
Qed.

Lemma disk_fold_max_zeros n width radius x y :
  disk_fold Float.max 0%Q (replicate n 0%Q) width radius x y = 0%Q.
Proof.
  unfold disk_fold. apply (for_invariant (fun acc => acc = 0%Q)); [done|].
  intros dy acc _ ->. apply (for_invariant (fun acc => acc = 0%Q)); [done|].
  intros dx acc _ ->. rewrite vget_zeros. by destruct (_ <=? _).
Qed.

Lemma opening_zeros n width height radius :
  0 <= radius ->
  applyMorphologicalOpening (replicate n 0%Q) width height radius =
  replicate n 0%Q.
Proof.
  intros Hr. unfold applyMorphologicalOpening.
  assert (erode (replicate n 0%Q) width height radius = replicate n 0%Q) as ->.
  { unfold erode, morph_pass.
    apply (for_invariant (fun m => m = replicate n 0%Q)); [done|].
    intros y m _ ->.
    apply (for_invariant (fun m => m = replicate n 0%Q)); [done|].
    intros x m _ ->. rewrite disk_fold_min_zeros by done. apply vset_zeros. }
  unfold dilate, morph_pass.
  apply (for_invariant (fun m => m = replicate n 0%Q)); [done|].
  intros y m _ ->.
  apply (for_invariant (fun m => m = replicate n 0%Q)); [done|].
  intros x m _ ->. rewrite disk_fold_max_zeros. apply vset_zeros.
Qed.

Lemma hysteresis_zeros n width height :
  applyHysteresisThresholding (replicate n 0%Q) width height 4 30 =
  replicate n 0%Q.
Proof.
  unfold applyHysteresisThresholding.
  apply (for_invariant (fun m => m = replicate n 0%Q)); [done|].
  intros y m _ ->.
  apply (for_invariant (fun m => m = replicate n 0%Q)); [done|].
  intros x m _ ->. unfold hysteresis_pixel. rewrite vget_zeros. simpl.
  apply vset_zeros.
Qed.

Lemma radius_of_pos width height : 3 <= radius_of width height.
Proof. unfold radius_of. lia. Qed.

(** * A frame without change *)

Section detect_quiet.
Variables (buffer : list byte) (width height stride : Z) (gl0 : Globals).

Let obs (gl : Globals) (n : nat) : PixelState :=
  default zero_state (pixel_states gl !! n).
Let body (c : Z * Z) : Globals -> Globals :=
  detect_pixel buffer width stride c.1 c.2.
Let Inv (gl : Globals) : Prop :=
  length (pixel_states gl) = length (pixel_states gl0) /\
  motion_mask gl = motion_mask gl0.
Let Post (c : Z * Z) (v : PixelState) : Prop := time v = 0.

Hypothesis states_len :
  (Z.to_nat (width * height) <= length (pixel_states gl0))%nat.
Hypothesis quiet : forall y x,
  0 <= y < height -> 0 <= x < width ->
  Float.ltb (colorDistance (pixel_at buffer stride y x)
               (bg_rgb (vget zero_state (pixel_states gl0) (y * width + x))))
            25%Q = true.

(** When every pixel is within the noise threshold of its estimate,
    the detector writes nothing into the mask and clears every
    counter. *)
Lemma detect_quiet :
  let gl' := detect buffer width height stride gl0 in
  motion_mask gl' = motion_mask gl0 /\
  forall y x, 0 <= y < height -> 0 <= x < width ->
    time (vget zero_state (pixel_states gl') (y * width + x)) = 0.
Proof.
  assert (midway (idx_of width) obs Inv Post gl0
            (cells 0 height 0 width) (detect buffer width height stride gl0))
    as ((_ & Hmask) & _ & Hpost).
  { unfold detect.
    rewrite (nested_for_cells 0 height 0 width
               (detect_pixel buffer width stride)).
    apply (pass_post (idx_of width) obs body Inv Post gl0).
    - intros c gl n Hn. unfold body, obs. rewrite detect_pixel_eq. simpl.
      unfold vset. by rewrite list_lookup_insert_ne.
    - by apply NoDup_idx.
    - done.
    - intros l1 [y x] l2 gl Hl Hfresh ((Hlen & Hmm) & Hun & _).
      assert ((y, x) ∈ cells 0 height 0 width) as [Hy Hx]%elem_of_cells
        by (rewrite Hl, elem_of_app; right; by left).
      pose proof (idx_lt width height y x Hy Hx) as Hlt.
      specialize (Hun _ Hfresh). unfold obs, idx_of in Hun. simpl in Hun.
      assert (vget zero_state (pixel_states gl) (y * width + x) =
              vget zero_state (pixel_states gl0) (y * width + x)) as Hst
        by exact Hun.
      unfold body. rewrite detect_pixel_eq. simpl.
      unfold next_state, next_mask. rewrite Hst, (quiet y x Hy Hx).
      split.
      + split; simpl; [by rewrite length_vset | by rewrite vset_vget].
      + unfold Post, obs, idx_of, vset. simpl.
        by rewrite list_lookup_insert_eq by lia. }
  split; [done|]. intros y x Hy Hx.
  apply (Hpost (y, x)). by apply elem_of_cells.
Qed.
End detect_quiet.

Lemma bg_rgb_rgb_state pixel t : bg_rgb (rgb_state pixel t) = pixel.
Proof.
  unfold bg_rgb, rgb_state. simpl. rewrite !to_u8_of_u8. by destruct pixel.
Qed.

(** C8.  When the second frame ever processed is within colour distance
    25 of the first at every pixel, the call on the second frame leaves
    an all-zero mask and every counter at 0. *)
Theorem noise_insensitivity width height stride frame1 frame2 :
  (forall y x, 0 <= y < height -> 0 <= x < width ->
     Float.ltb (colorDistance (pixel_at frame2 stride y x)
                              (pixel_at frame1 stride y x)) 25%Q = true) ->
  let gl := run width height stride [frame1; frame2] fresh in
  motion_mask gl = replicate (Z.to_nat (width * height)) 0%Q /\
  forall y x, 0 <= y < height -> 0 <= x < width ->
    time (vget zero_state (pixel_states gl) (y * width + x)) = 0.
Proof.
  intros Hquiet. unfold run. simpl.
  pose proof (seed_length frame1 width height stride) as Hlen.
  destruct (seed frame1 width height stride) as [|st ps] eqn:Hseed; simpl.
  - (* no pixel at all: the second call seeds again *)
    simpl in Hlen. rewrite <- Hlen. split; [done|].
    intros y x Hy Hx. by rewrite seed_cell.
  - rewrite <- Hseed. clear st ps Hseed Hlen.
    destruct (detect_quiet frame2 width height stride
                {| pixel_states := seed frame1 width height stride;
                   motion_mask := replicate (Z.to_nat (width * height)) 0%Q |})
      as [Hmask Htime].
    + simpl. by rewrite seed_length.
    + intros y x Hy Hx. simpl.
      rewrite seed_cell, bg_rgb_rgb_state by done. by apply Hquiet.
    + simpl in Hmask. rewrite Hmask.
      rewrite opening_zeros by (pose proof (radius_of_pos width height); lia).
      by rewrite hysteresis_zeros.
Qed.

Lemma noise_insensitivity_witness :
  let gl := run 2 1 8 [frame_2x1; frame_2x1'] fresh in
  motion_mask gl = replicate (Z.to_nat (2 * 1)) 0%Q /\
  forall y x, 0 <= y < 1 -> 0 <= x < 2 ->
    time (vget zero_state (pixel_states gl) (y * 2 + x)) = 0.
Proof.
  apply (noise_insensitivity 2 1 8 frame_2x1 frame_2x1').
  intros y x Hy Hx.
  assert (y = 0) as -> by lia.
  assert (x = 0 \/ x = 1) as [-> | ->] by lia; vm_compute; reflexivity.
Defined.

(** * The states across calls *)

(** A Running-state call takes the [PixelState] of every pixel one
    detector step further. *)
Lemma filter_impl_running_cell gl buffer width height stride pixel_stride y x :
  (Z.to_nat (width * height) <= length (pixel_states gl))%nat ->
  0 <= y < height -> 0 <= x < width ->
  vget zero_state
       (pixel_states (filter_impl gl buffer width height stride pixel_stride).1)
       (y * width + x) =
  next_state (pixel_at buffer stride y x)
             (vget zero_state (pixel_states gl) (y * width + x)).
Proof.
  intros Hlen Hy Hx. unfold filter_impl.
  destruct (pixel_states gl) as [|st ps] eqn:Hps.
  { pose proof (idx_lt width height y x Hy Hx). simpl in Hlen. lia. }
  simpl. rewrite <- Hps.
  destruct (detect_cell buffer width height stride
              {| pixel_states := pixel_states gl;
                 motion_mask := alloc_mask width height (motion_mask gl) |})
    with (y := y) (x := x) as [Hstate _]; [simpl; by rewrite Hps | done..].
Qed.

Lemma filter_impl_running_length gl buffer width height stride pixel_stride :
  pixel_states gl <> [] ->
  length (pixel_states (filter_impl gl buffer width height stride pixel_stride).1)
  = length (pixel_states gl).
Proof.
  intros Hne. unfold filter_impl.
  destruct (pixel_states gl) as [|st ps] eqn:Hps; [done|].
  simpl. unfold detect.
  apply (for_invariant
           (fun gl' => length (pixel_states gl') = S (length ps)));
    [done|].
  intros y' gl1 _ Hgl1.
  apply (for_invariant
           (fun gl' => length (pixel_states gl') = S (length ps)));
    [done|].
  intros x' gl2 _ Hgl2. rewrite detect_pixel_eq. simpl.
  by rewrite length_vset.
Qed.

Lemma run_app width height stride frames1 frames2 gl :
  run width height stride (frames1 ++ frames2) gl =
  run width height stride frames2 (run width height stride frames1 gl).
Proof. unfold run. apply fold_left_app. Qed.

Lemma run_length width height stride frames gl :
  pixel_states gl <> [] ->
  length (pixel_states (run width height stride frames gl)) =
  length (pixel_states gl).
Proof.
  revert gl. induction frames as [|buffer frames IH]; intros gl Hne; [done|].
  change (run width height stride (buffer :: frames) gl)
    with (run width height stride frames
            (filter_impl gl buffer width height stride 3).1).
  pose proof (filter_impl_running_length gl buffer width height stride 3 Hne)
    as Hlen.
  rewrite IH; [done|].
  intros Hnil. rewrite Hnil in Hlen. destruct (pixel_states gl); done.
Qed.

(** C6.  A pixel whose counter is 0 and whose colour is at distance 25
    or more from its stored estimate on 101 consecutive frames keeps the
    estimate during the first 100 of them, the counter counting the
    frames; the 101st frame replaces the estimate by the colour of the
    pixel in that frame and resets the counter to 0. *)
Theorem adaptation_after_101 width height stride frames gl y x :
  (Z.to_nat (width * height) <= length (pixel_states gl))%nat ->
  0 <= y < height -> 0 <= x < width ->
  let idx := y * width + x in
  let state0 := vget zero_state (pixel_states gl) idx in
  time state0 = 0 ->
  length frames = 101%nat ->
  Forall (fun buffer =>
            Float.ltb (colorDistance (pixel_at buffer stride y x)
                                     (bg_rgb state0)) 25%Q = false) frames ->
  (forall k, (k <= 100)%nat ->
     let state :=
       vget zero_state
            (pixel_states (run width height stride (take k frames) gl)) idx in
     bg_r state = bg_r state0 /\ bg_g state = bg_g state0 /\
     bg_b state = bg_b state0 /\ time state = Z.of_nat k) /\
  (exists buffer,
     frames !! 100%nat = Some buffer /\
     vget zero_state (pixel_states (run width height stride frames gl)) idx =
     rgb_state (pixel_at buffer stride y x) 0).
Proof.
  intros Hlen Hy Hx idx state0 Ht0 Hframes Hfar.
  assert (Hne : pixel_states gl <> []).
  { pose proof (idx_lt width height y x Hy Hx).
    destruct (pixel_states gl); [simpl in Hlen; lia | done]. }
  assert (Hstep : forall k buffer,
             frames !! k = Some buffer ->
             vget zero_state
                  (pixel_states (run width height stride (take (S k) frames) gl))
                  idx =
             next_state (pixel_at buffer stride y x)
               (vget zero_state
                  (pixel_states (run width height stride (take k frames) gl))
                  idx)).
  { intros k buffer Hk. rewrite (take_S_r _ _ _ Hk), run_app.
    apply filter_impl_running_cell; [|done..].
    by rewrite run_length. }
  assert (Hfirst : forall k, (k <= 100)%nat ->
     let state :=
       vget zero_state
            (pixel_states (run width height stride (take k frames) gl)) idx in
     bg_r state = bg_r state0 /\ bg_g state = bg_g state0 /\
     bg_b state = bg_b state0 /\ time state = Z.of_nat k).
  { induction k as [|k IH]; intros Hk; [by rewrite take_0|].
    destruct (lookup_lt_is_Some_2 frames k) as [buffer Hbuf]; [lia|].
    destruct IH as (Hr & Hg & Hb & Ht); [lia|].
    simpl. rewrite (Hstep k buffer Hbuf).
    set (state := vget zero_state
                    (pixel_states (run width height stride (take k frames) gl))
                    idx) in *.
    unfold next_state.
    replace (bg_rgb state) with (bg_rgb state0)
      by (unfold bg_rgb; by rewrite Hr, Hg, Hb).
    rewrite (proj1 (Forall_lookup _ _) Hfar k buffer Hbuf).
    destruct (100 <? time state + 1) eqn:Hlt; [apply Z.ltb_lt in Hlt; lia|].
    simpl. repeat split; try done. lia. }
  split; [exact Hfirst|].
  destruct (lookup_lt_is_Some_2 frames 100) as [buffer Hbuf]; [lia|].
  exists buffer. split; [done|].
  destruct (Hfirst 100%nat) as (Hr & Hg & Hb & Ht); [lia|].
  rewrite <- (take_ge frames 101) at 1 by lia.
  rewrite (Hstep 100%nat buffer Hbuf).
  set (state := vget zero_state
                  (pixel_states (run width height stride (take 100 frames) gl))
                  idx) in *.
  unfold next_state.
  replace (bg_rgb state) with (bg_rgb state0)
    by (unfold bg_rgb; by rewrite Hr, Hg, Hb).
  rewrite (proj1 (Forall_lookup _ _) Hfar 100%nat buffer Hbuf).
  by replace (100 <? time state + 1) with true by (symmetry; apply Z.ltb_lt; lia).
Qed.

Lemma adaptation_after_101_witness :
  let gl := run 1 1 3 [black_1x1] fresh in
  let frames := replicate 101 white_1x1 in
  let state0 := vget zero_state (pixel_states gl) (0 * 1 + 0) in
  (forall k, (k <= 100)%nat ->
     let state :=
       vget zero_state (pixel_states (run 1 1 3 (take k frames) gl))
            (0 * 1 + 0) in
     bg_r state = bg_r state0 /\ bg_g state = bg_g state0 /\
     bg_b state = bg_b state0 /\ time state = Z.of_nat k) /\
  (exists buffer,
     frames !! 100%nat = Some buffer /\
     vget zero_state (pixel_states (run 1 1 3 frames gl)) (0 * 1 + 0) =
     rgb_state (pixel_at buffer 3 0 0) 0).
Proof.
  apply (adaptation_after_101 1 1 3 (replicate 101 white_1x1)
           (run 1 1 3 [black_1x1] fresh) 0 0).
  - vm_compute. lia.
  - lia.
  - lia.
  - reflexivity.
  - reflexivity.
  - apply Forall_replicate. vm_compute. reflexivity.
Defined.

(** * The Hysteresis Stabilizer *)

Lemma for_invariant2 {S} (R : S -> S -> Prop) lo hi
    (body1 body2 : Z -> S -> S) s1 s2 :
  R s1 s2 ->
  (forall i a b, lo <= i < hi -> R a b -> R (body1 i a) (body2 i b)) ->
  R (for_ lo hi body1 s1) (for_ lo hi body2 s2).
Proof.
  unfold for_. intros Hs Hbody.
  assert (Hin : forall i, i ∈ range lo hi -> lo <= i < hi)
    by (intros i; apply elem_of_range).
  revert s1 s2 Hs. induction (range lo hi) as [|i l IH]; intros s1 s2 Hs; simpl.
  - exact Hs.
  - apply IH.
    + intros k Hk. apply Hin. by right.
    + apply Hbody; [apply Hin; by left | exact Hs].
Qed.

Lemma Forall2_vget (m2 m1 : list Q) i :
  Forall2 Qle m2 m1 -> (vget 0%Q m2 i <= vget 0%Q m1 i)%Q.
Proof.
  intros Hm. unfold vget.
  destruct (m2 !! Z.to_nat i) as [a|] eqn:Ha.
  - destruct (Forall2_lookup_l _ _ _ _ _ Hm Ha) as (c & -> & Hle). done.
  - apply lookup_ge_None in Ha. rewrite (Forall2_length _ _ _ Hm) in Ha.
    apply lookup_ge_None in Ha. rewrite Ha. simpl. apply Qle_refl.
Qed.

Lemma Forall2_vset (m2 m1 : list Q) i a c :
  Forall2 Qle m2 m1 -> (a <= c)%Q -> Forall2 Qle (vset m2 i a) (vset m1 i c).
Proof. intros Hm Hac. by apply Forall2_insert. Qed.

Lemma existsb_impl {A} (f g : A -> bool) l :
  (forall x, f x = true -> g x = true) ->
  existsb f l = true -> existsb g l = true.
Proof.
  intros Hfg. rewrite !existsb_exists. intros (x & Hx & Hf). eauto.
Qed.

Lemma strong_neighbor_mono m2 m1 width height high1 high2 x y :
  (high1 <= high2)%Q -> Forall2 Qle m2 m1 ->
  strong_neighbor m2 width height high2 x y = true ->
  strong_neighbor m1 width height high1 x y = true.
Proof.
  intros Hhigh Hm. unfold strong_neighbor.
  apply existsb_impl. intros dy. apply existsb_impl. intros dx.
  rewrite !andb_true_iff. intros [Hin Hle]. split; [done|].
  apply leb_le. apply leb_le in Hle.
  eapply Qle_trans; [exact Hhigh|]. eapply Qle_trans; [exact Hle|].
  by apply Forall2_vget.
Qed.

(** One step of the sweep is monotone in the mask and antitone in the
    high threshold. *)
Lemma hysteresis_pixel_mono width height low high1 high2 x y m2 m1 :
  (high1 <= high2)%Q -> Forall2 Qle m2 m1 ->
  Forall2 Qle (hysteresis_pixel width height low high2 x y m2)
              (hysteresis_pixel width height low high1 x y m1).
Proof.
  intros Hhigh Hm. unfold hysteresis_pixel.
  pose proof (Forall2_vget m2 m1 (y * width + x) Hm) as Hv.
  set (v2 := vget 0%Q m2 (y * width + x)) in *.
  set (v1 := vget 0%Q m1 (y * width + x)) in *.
  assert (H01 : (0 <= 1)%Q) by done.
  destruct (Float.leb high2 v2) eqn:Hs2.
  - apply leb_le in Hs2.
    assert (Float.leb high1 v1 = true) as ->.
    { apply leb_le. eapply Qle_trans; [exact Hhigh|]. by eapply Qle_trans. }
    apply Forall2_vset; [done | apply Qle_refl].
  - destruct (Float.ltb v2 low) eqn:Ha2.
    + destruct (Float.leb high1 v1); [by apply Forall2_vset|].
      destruct (Float.ltb v1 low); [apply Forall2_vset; [done|apply Qle_refl]|].
      apply Forall2_vset; [done|]. by destruct (strong_neighbor m1 _ _ _ _ _).
    + destruct (Float.leb high1 v1).
      { apply Forall2_vset; [done|]. by destruct (strong_neighbor m2 _ _ _ _ _). }
      assert (Float.ltb v1 low = false) as ->.
      { apply ltb_ge. apply ltb_ge in Ha2. by eapply Qle_trans. }
      apply Forall2_vset; [done|].
      destruct (strong_neighbor m2 _ _ _ _ _) eqn:Hn2.
      * by rewrite (strong_neighbor_mono m2 m1 width height high1 high2 x y).
      * by destruct (strong_neighbor m1 _ _ _ _ _).
Qed.

Lemma hysteresis_mono m width height low high1 high2 :
  (high1 <= high2)%Q ->
  Forall2 Qle (applyHysteresisThresholding m width height low high2)
              (applyHysteresisThresholding m width height low high1).
Proof.
  intros Hhigh. unfold applyHysteresisThresholding.
  apply (for_invariant2 (Forall2 Qle)).
  { apply Forall_Forall2_diag, Forall_forall. intros q _. apply Qle_refl. }
  intros y m2 m1 _ Hm. apply (for_invariant2 (Forall2 Qle)); [done|].
  intros x m2' m1' _ Hm'. by apply hysteresis_pixel_mono.
Qed.

Section hysteresis_cells.
Variables (width height : Z) (low high : Q) (m0 : list Q).

Let obs (m : list Q) (n : nat) : Q := default 0%Q (m !! n).
Let body (c : Z * Z) : list Q -> list Q :=
  hysteresis_pixel width height low high c.2 c.1.
Let Inv (m : list Q) : Prop := length m = length m0.
Let Post (c : Z * Z) (v : Q) : Prop := v = 0%Q \/ v = 1%Q.

Lemma hysteresis_pixel_cases x y m :
  exists v, (v = 0%Q \/ v = 1%Q) /\
    hysteresis_pixel width height low high x y m = vset m (y * width + x) v.
Proof.
  unfold hysteresis_pixel.
  destruct (Float.leb _ _); [by exists 1%Q; auto|].
  destruct (Float.ltb _ _); [by exists 0%Q; auto|].
  destruct (strong_neighbor _ _ _ _ _ _); [exists 1%Q | exists 0%Q]; auto.
Qed.

(** After the sweep the mask is binary at every pixel. *)
Lemma hysteresis_binary y x :
  0 <= y < height -> 0 <= x < width ->
  let v := vget 0%Q (applyHysteresisThresholding m0 width height low high)
                (y * width + x) in
  v = 0%Q \/ v = 1%Q.
Proof.
  intros Hy Hx.
  assert (midway (idx_of width) obs Inv Post m0 (cells 0 height 0 width)
            (applyHysteresisThresholding m0 width height low high))
    as (_ & _ & Hpost).
  { unfold applyHysteresisThresholding.
    rewrite (nested_for_cells 0 height 0 width
               (fun y x => hysteresis_pixel width height low high x y)).
    apply (pass_post (idx_of width) obs body Inv Post m0).
    - intros [y' x'] m n Hn. unfold body, obs. simpl.
      destruct (hysteresis_pixel_cases x' y' m) as (v & _ & ->).
      unfold vset. by rewrite list_lookup_insert_ne.
    - by apply NoDup_idx.
    - done.
    - intros l1 [y' x'] l2 m _ _ (Hinv & _). unfold body. simpl.
      destruct (hysteresis_pixel_cases x' y' m) as (v & Hv & ->). split.
      + unfold Inv. by rewrite length_vset.
      + unfold Post, obs, idx_of, vset. simpl.
        destruct (decide (Z.to_nat (y' * width + x') < length m)%nat).
        * by rewrite list_lookup_insert_eq.
        * rewrite list_insert_ge by lia.
          rewrite (proj2 (lookup_ge_None _ _)) by lia. by left. }
  apply (Hpost (y, x)). by apply elem_of_cells.
Qed.
End hysteresis_cells.

(** The final values are antitone in the high threshold: for a fixed
    mask and a fixed low threshold, a pixel whose final value is 1 at
    the higher of two high thresholds has final value 1 at the lower one
    as well. *)
Lemma hysteresis_antitone_in_high m width height low high1 high2 y x :
  (high1 <= high2)%Q ->
  0 <= y < height -> 0 <= x < width ->
  vget 0%Q (applyHysteresisThresholding m width height low high2)
       (y * width + x) = 1%Q ->
  vget 0%Q (applyHysteresisThresholding m width height low high1)
       (y * width + x) = 1%Q.
Proof.
  intros Hhigh Hy Hx H2.
  pose proof (Forall2_vget _ _ (y * width + x)
                (hysteresis_mono m width height low high1 high2 Hhigh)) as Hle.
  rewrite H2 in Hle.
  destruct (hysteresis_binary width height low high1 m y x Hy Hx) as [H1|H1];
    [|done].
  rewrite H1 in Hle. by apply Qle_not_lt in Hle.
Qed.

(** The final value itself can drop when [high] is raised: the single
    pixel of value 50 is strong (final value 1) at [high = 30]; at
    [high = 60] it is weak and, without a strong neighbour, demoted to
    0. *)
Example raised_high_demotes_weak_pixel :
  (30 <= 60)%Q /\
  vget 0%Q (applyHysteresisThresholding [50%Q] 1 1 4 30) (0 * 1 + 0) = 1%Q /\
  vget 0%Q (applyHysteresisThresholding [50%Q] 1 1 4 60) (0 * 1 + 0) = 0%Q.
Proof. split; [vm_compute; discriminate|]. split; vm_compute; reflexivity. Qed.

(** * The sweep of the Hysteresis Stabilizer, exactly *)

Lemma for_snoc {S} lo k (body : Z -> S -> S) s :
  for_ lo (lo + Z.of_nat (Datatypes.S k)) body s =
  body (lo + Z.of_nat k) (for_ lo (lo + Z.of_nat k) body s).
Proof.
  unfold for_, range.
  replace (lo + Z.of_nat (Datatypes.S k) - lo) with (Z.of_nat (Datatypes.S k))
    by lia.
  replace (lo + Z.of_nat k - lo) with (Z.of_nat k) by lia.
  by rewrite seqZ_S, fold_left_app.
Qed.

Lemma for_empty {S} lo hi (body : Z -> S -> S) s :
  hi <= lo -> for_ lo hi body s = s.
Proof. intros Hle. unfold for_, range. by rewrite seqZ_nil by lia. Qed.

(** A loop invariant that depends on the loop variable. *)
Lemma for_invariant_idx {S} (P : Z -> S -> Prop) lo hi (body : Z -> S -> S) s :
  lo <= hi ->
  P lo s ->
  (forall i s', lo <= i < hi -> P i s' -> P (i + 1) (body i s')) ->
  P hi (for_ lo hi body s).
Proof.
  intros Hle Hs Hbody.
  replace hi with (lo + Z.of_nat (Z.to_nat (hi - lo))) in * by lia.
  induction (Z.to_nat (hi - lo)) as [|k IH].
  - rewrite for_empty by lia. by rewrite Z.add_0_r.
  - rewrite for_snoc.
    replace (lo + Z.of_nat (Datatypes.S k)) with (lo + Z.of_nat k + 1) by lia.
    apply Hbody; [lia|]. apply IH; [lia|].
    intros i s' Hi. apply Hbody. lia.
Qed.

Section hysteresis_exact.
Variables (width height : Z) (low high : Q) (m0 : list Q).

Hypothesis high_above_1 : (1 < high)%Q.
Hypothesis mask_len : (Z.to_nat (width * height) <= length m0)%nat.

(** The mask when the sweep is about to visit [(y, x)]. *)
Let sweeping (y x : Z) (m : list Q) : Prop :=
  length m = length m0 /\
  forall y' x', 0 <= y' < height -> 0 <= x' < width ->
    vget 0%Q m (y' * width + x') =
    if visited_before y x y' x'
    then hysteresis_value m0 width height low high x' y'
    else vget 0%Q m0 (y' * width + x').

Lemma hysteresis_value_binary x y :
  hysteresis_value m0 width height low high x y = 0%Q \/
  hysteresis_value m0 width height low high x y = 1%Q.
Proof.
  unfold hysteresis_value.
  destruct (Float.leb _ _); [by right|].
  destruct (Float.ltb _ _); [by left|].
  destruct (existsb _ _); auto.
Qed.

Lemma hysteresis_value_not_strong x y :
  Float.leb high (hysteresis_value m0 width height low high x y) = false.
Proof.
  apply leb_gt.
  destruct (hysteresis_value_binary x y) as [-> | ->]; [|done].
  eapply Qlt_trans; [|exact high_above_1]. done.
Qed.

(** A neighbour seen from a weak pixel during the sweep counts exactly
    when it is visited later and was strong before the sweep. *)
Lemma strong_at_sweeping y x m dy dx :
  sweeping y x m -> 0 <= y < height -> 0 <= x < width ->
  Float.leb high (vget 0%Q m0 (y * width + x)) = false ->
  -1 <= dy <= 1 -> -1 <= dx <= 1 ->
  strong_at m width height high x y (dy, dx) =
  if visited_before 0 0 (- dy) (- dx)
  then strong_at m0 width height high x y (dy, dx) else false.
Proof.
  intros [_ Hm] Hy Hx Hweak Hdy Hdx. unfold strong_at. simpl.
  destruct ((0 <=? y + dy) && (y + dy <? height) && (0 <=? x + dx)
            && (x + dx <? width)) eqn:Hin; simpl; [|by destruct (visited_before _ _ _ _)].
  rewrite !andb_true_iff in Hin. destruct Hin as [[[H1 H2] H3] H4].
  apply Z.leb_le in H1, H3. apply Z.ltb_lt in H2, H4.
  rewrite (Hm (y + dy) (x + dx)) by lia.
  unfold visited_before.
  destruct (Z.ltb_spec (y + dy) y), (Z.eqb_spec (y + dy) y),
    (Z.ltb_spec (x + dx) x), (Z.ltb_spec (- dy) 0), (Z.eqb_spec (- dy) 0),
    (Z.ltb_spec (- dx) 0); simpl; try lia;
    try apply hysteresis_value_not_strong; try done.
  assert (dy = 0 /\ dx = 0) as [-> ->] by lia.
  by rewrite !Z.add_0_r.
Qed.

Lemma strong_neighbor_sweeping y x m :
  sweeping y x m -> 0 <= y < height -> 0 <= x < width ->
  Float.leb high (vget 0%Q m0 (y * width + x)) = false ->
  strong_neighbor m width height high x y =
  existsb (strong_at m0 width height high x y) later_neighbors.
Proof.
  intros Hm Hy Hx Hweak.
  change (strong_neighbor m width height high x y) with
    (existsb (fun dy =>
       existsb (fun dx => strong_at m width height high x y (dy, dx))
               (range (-1) 2)) (range (-1) 2)).
  change (range (-1) 2) with [-1; 0; 1]. unfold later_neighbors.
  cbn [existsb].
  rewrite !(strong_at_sweeping y x m) by (done || lia).
  cbn. by rewrite !orb_false_r.
Qed.

Lemma hysteresis_pixel_sweeping y x m :
  sweeping y x m -> 0 <= y < height -> 0 <= x < width ->
  sweeping y (x + 1) (hysteresis_pixel width height low high x y m).
Proof.
  intros Hm Hy Hx. pose proof Hm as [Hlen Hcells].
  assert (hysteresis_pixel width height low high x y m =
          vset m (y * width + x)
               (hysteresis_value m0 width height low high x y)) as ->.
  { unfold hysteresis_pixel, hysteresis_value.
    rewrite (Hcells y x Hy Hx).
    replace (visited_before y x y x) with false
      by (unfold visited_before; destruct (Z.ltb_spec y y), (Z.ltb_spec x x);
          simpl; try lia; by destruct (y =? y)).
    destruct (Float.leb _ _) eqn:Hs; [done|].
    destruct (Float.ltb _ _); [done|].
    by rewrite (strong_neighbor_sweeping y x m). }
  pose proof (idx_lt width height y x Hy Hx) as Hlt.
  split; [by rewrite length_vset|].
  intros y' x' Hy' Hx'.
  destruct (decide (y' = y /\ x' = x)) as [[-> ->] | Hne].
  - rewrite vget_vset_eq by lia.
    replace (visited_before y (x + 1) y x) with true; [done|].
    unfold visited_before.
    destruct (Z.ltb_spec y y), (Z.eqb_spec y y), (Z.ltb_spec x (x + 1));
      simpl; try lia; done.
  - rewrite vget_vset_ne.
    + rewrite (Hcells y' x' Hy' Hx').
      replace (visited_before y (x + 1) y' x') with (visited_before y x y' x');
        [done|].
      unfold visited_before.
      destruct (Z.ltb_spec y' y), (Z.eqb_spec y' y), (Z.ltb_spec x' x),
        (Z.ltb_spec x' (x + 1)); simpl; try lia; done.
    + intros Heq. apply idx_inj in Heq; lia.
Qed.

Lemma hysteresis_sweep_done :
  0 <= height -> 0 <= width ->
  sweeping height 0 (applyHysteresisThresholding m0 width height low high).
Proof.
  intros Hh Hw. unfold applyHysteresisThresholding.
  apply (for_invariant_idx (fun y m => sweeping y 0 m)); [done| |].
  - split; [done|]. intros y' x' Hy' Hx'.
    replace (visited_before 0 0 y' x') with false; [done|].
    unfold visited_before.
    destruct (Z.ltb_spec y' 0), (Z.eqb_spec y' 0), (Z.ltb_spec x' 0);
      simpl; try lia; done.
  - intros y m Hy Hm.
    assert (sweeping y width
              (for_ 0 width
                 (fun x => hysteresis_pixel width height low high x y) m))
      as [Hlen Hcells].
    { apply (for_invariant_idx (fun x m => sweeping y x m)); [done..|].
      intros x m' Hx Hm'. by apply hysteresis_pixel_sweeping. }
    split; [done|]. intros y' x' Hy' Hx'. rewrite (Hcells y' x' Hy' Hx').
    replace (visited_before (y + 1) 0 y' x') with (visited_before y width y' x');
      [done|].
    unfold visited_before.
    destruct (Z.ltb_spec y' y), (Z.eqb_spec y' y), (Z.ltb_spec x' width),
      (Z.ltb_spec y' (y + 1)), (Z.eqb_spec y' (y + 1)), (Z.ltb_spec x' 0);
      simpl; try lia; done.
Qed.

(** The final value of every pixel, from the mask before the sweep. *)
Lemma hysteresis_cell y x :
  0 <= y < height -> 0 <= x < width ->
  vget 0%Q (applyHysteresisThresholding m0 width height low high)
       (y * width + x) =
  hysteresis_value m0 width height low high x y.
Proof.
  intros Hy Hx. destruct hysteresis_sweep_done as [_ Hcells]; [lia..|].
  rewrite (Hcells y x Hy Hx).
  replace (visited_before height 0 y x) with true; [done|].
  unfold visited_before. destruct (Z.ltb_spec y height); [done|lia].
Qed.
End hysteresis_exact.

(** C1 (a weak pixel is promoted exactly when one of its 8 neighbours
    was strong before the sweep) does not hold of the code.  In the
    one-row mask [50, 26] the right pixel is weak and its left neighbour
    had the pre-sweep value 50 >= 30, yet the sweep demotes it: when the
    right pixel is visited the left one already holds 1.0, which is
    below [high].  With the same two values in the other order the weak
    pixel is promoted.  Both masks arise in the filter, from a black 2x1
    frame followed by [frame_50_26], respectively [frame_26_50]. *)
Theorem hysteresis_reads_rewritten_neighbors :
  let m := [50%Q; 26%Q] in
  Float.leb 4 (vget 0%Q m 1) = true /\
  Float.ltb (vget 0%Q m 1) 30 = true /\
  strong_neighbor m 2 1 30 1 0 = true /\
  applyHysteresisThresholding m 2 1 4 30 = [1%Q; 0%Q] /\
  applyHysteresisThresholding [26%Q; 50%Q] 2 1 4 30 = [1%Q; 1%Q] /\
  Forall2 Qeq (motion_mask (after_detector (run 2 1 6 [gray 2 x00] fresh)
                              frame_50_26 2 1 6)) m /\
  motion_mask (run 2 1 6 [gray 2 x00; frame_50_26] fresh) = [1%Q; 0%Q] /\
  motion_mask (run 2 1 6 [gray 2 x00; frame_26_50] fresh) = [1%Q; 1%Q].
Proof.
  vm_compute. repeat split; try done.
  repeat constructor.
Qed.

(** * The Compositor *)

Lemma byte_idx_inj width stride y x y' x' :
  0 <= 3 * width <= stride ->
  0 <= y -> 0 <= y' -> 0 <= x < width -> 0 <= x' < width ->
  forall k, 0 <= k < 3 ->
  Z.to_nat (y * stride + 3 * x + k) = Z.to_nat (y' * stride + 3 * x') ->
  y = y' /\ x = x' /\ k = 0.
Proof.
  intros Hs Hy Hy' Hx Hx' k Hk Heq.
  assert (y * stride + 3 * x + k = y' * stride + 3 * x') as Heq' by nia.
  assert (y = y') by nia. subst. lia.
Qed.

Section composite_cells.
Variables (mask : list Q) (width height stride : Z) (buffer0 : list byte).

Hypothesis geometry : 0 <= 3 * width <= stride.
Hypothesis buffer_len : (height - 1) * stride + 3 * width <= Z.of_nat (length buffer0).

Let loc (c : Z * Z) : nat := Z.to_nat (c.1 * stride + 3 * c.2).
Let obs (buffer : list byte) (n : nat) : option byte := buffer !! n.
Let body (c : Z * Z) : list byte -> list byte :=
  composite_pixel mask width stride c.1 c.2.
Let Inv (buffer : list byte) : Prop := length buffer = length buffer0.
Let Post (c : Z * Z) (v : option byte) : Prop :=
  let red := vget x00 buffer0 (c.1 * stride + 3 * c.2) in
  v = Some (if Float.ltb 0%Q (vget 0%Q mask (c.1 * width + c.2))
            then Float.u8_of_Z (Z.min 255 (chan red + chan highlight))
            else red).

Lemma NoDup_red : NoDup (loc <$> cells 0 height 0 width).
Proof.
  apply NoDup_fmap_2_strong; [|apply NoDup_cells].
  intros [y x] [y' x'] [? ?]%elem_of_cells [? ?]%elem_of_cells Heq.
  unfold loc in Heq. simpl in Heq.
  destruct (byte_idx_inj width stride y x y' x' geometry) with (k := 0)
    as (-> & -> & _); try lia; try done.
Qed.

Lemma red_in_buffer y x :
  0 <= y < height -> 0 <= x < width ->
  (Z.to_nat (y * stride + 3 * x) < length buffer0)%nat.
Proof. intros Hy Hx. apply Nat2Z.inj_lt. rewrite Z2Nat.id by nia. nia. Qed.

Lemma composite_midway :
  midway loc obs Inv Post buffer0 (cells 0 height 0 width)
         (composite mask width height stride buffer0).
Proof.
  unfold composite.
  rewrite (nested_for_cells 0 height 0 width
             (composite_pixel mask width stride)).
  apply (pass_post loc obs body Inv Post buffer0).
  - intros c buffer n Hn. unfold body, obs, composite_pixel.
    destruct (Float.ltb _ _); [|done].
    unfold vset. by rewrite list_lookup_insert_ne.
  - apply NoDup_red.
  - done.
  - intros l1 [y x] l2 buffer Hl Hfresh (Hinv & Hun & _).
    assert ((y, x) ∈ cells 0 height 0 width) as [Hy Hx]%elem_of_cells
      by (rewrite Hl, elem_of_app; right; by left).
    pose proof (red_in_buffer y x Hy Hx) as Hlt.
    specialize (Hun _ Hfresh). unfold obs, loc in Hun. simpl in Hun.
    unfold Inv in Hinv.
    unfold body, composite_pixel, Post, obs, loc. simpl.
    destruct (lookup_lt_is_Some_2 buffer0 _ Hlt) as [red Hred].
    rewrite Hred in Hun.
    rewrite (vget_lookup x00 buffer0 _ red Hred).
    destruct (Float.ltb _ _).
    + split; [unfold Inv; by rewrite length_vset|].
      unfold vset. rewrite list_lookup_insert_eq by lia.
      by rewrite (vget_lookup x00 buffer _ red Hun).
    + by split.
Qed.

(** What the Compositor makes of the buffer: the red byte of a pixel
    whose mask value is positive is raised (saturating), every other
    byte stays. *)
Lemma composite_pixels y x :
  0 <= y < height -> 0 <= x < width ->
  let buffer := composite mask width height stride buffer0 in
  let pixel := pixel_at buffer0 stride y x in
  pixel_at buffer stride y x =
  {| r := if Float.ltb 0%Q (vget 0%Q mask (y * width + x))
          then Float.u8_of_Z (Z.min 255 (chan (r pixel) + chan highlight))
          else r pixel;
     g := g pixel; b := b pixel |}.
Proof.
  intros Hy Hx. destruct composite_midway as (_ & Hun & Hpost).
  unfold pixel_at. simpl. f_equal.
  - specialize (Hpost (y, x)). unfold Post, obs, loc in Hpost. simpl in Hpost.
    apply vget_lookup, Hpost. by apply elem_of_cells.
  - unfold vget. f_equal. apply Hun.
    intros ([y' x'] & Heq & [? ?]%elem_of_cells)%list_elem_of_fmap.
    unfold loc in Heq. simpl in Heq.
    destruct (byte_idx_inj width stride y x y' x' geometry) with (k := 1)
      as (_ & _ & ?); try lia; done.
  - unfold vget. f_equal. apply Hun.
    intros ([y' x'] & Heq & [? ?]%elem_of_cells)%list_elem_of_fmap.
    unfold loc in Heq. simpl in Heq.
    destruct (byte_idx_inj width stride y x y' x' geometry) with (k := 2)
      as (_ & _ & ?); try lia; done.
Qed.

Lemma composite_other_bytes n :
  (forall y x, 0 <= y < height -> 0 <= x < width ->
     n <> Z.to_nat (y * stride + 3 * x)) ->
  composite mask width height stride buffer0 !! n = buffer0 !! n.
Proof.
  intros Hn. destruct composite_midway as (_ & Hun & _). apply Hun.
  intros ([y x] & Heq & [? ?]%elem_of_cells)%list_elem_of_fmap.
  by apply (Hn y x).
Qed.

Lemma composite_length :
  length (composite mask width height stride buffer0) = length buffer0.
Proof. by destruct composite_midway as (Hinv & _). Qed.
End composite_cells.

(** C7.  On a Running-state call the buffer returned is the Compositor's
    result on the buffer received.  The final mask is binary; a pixel
    whose final mask value is non-zero has its red channel raised by
    [uint8_t(0.5f * 255)] = 127, clamped to 255, and keeps its green and
    blue channels; a pixel whose final mask value is zero is unchanged;
    so is every byte of the buffer that is not the red byte of a
    pixel. *)
Theorem compositor_effect gl buffer width height stride pixel_stride :
  pixel_states gl <> [] ->
  0 <= 3 * width <= stride ->
  (height - 1) * stride + 3 * width <= Z.of_nat (length buffer) ->
  let out := filter_impl gl buffer width height stride pixel_stride in
  let mask := motion_mask out.1 in
  chan highlight = 127 /\
  out.2 = composite mask width height stride buffer /\
  length out.2 = length buffer /\
  (forall y x, 0 <= y < height -> 0 <= x < width ->
     let m := vget 0%Q mask (y * width + x) in
     let old := pixel_at buffer stride y x in
     let new := pixel_at out.2 stride y x in
     (m = 0%Q \/ m = 1%Q) /\
     (m <> 0%Q ->
      chan (r new) = Z.min 255 (chan (r old) + chan highlight) /\
      g new = g old /\ b new = b old) /\
     (m = 0%Q -> new = old)) /\
  (forall n,
     (forall y x, 0 <= y < height -> 0 <= x < width ->
        n <> Z.to_nat (y * stride + 3 * x)) ->
     out.2 !! n = buffer !! n).
Proof.
  intros Hne Hgeo Hlen. unfold filter_impl.
  destruct (pixel_states gl) as [|st ps] eqn:Hps; [done|].
  rewrite <- Hps. clear st ps Hps Hne. simpl.
  set (mask := applyHysteresisThresholding _ width height 4 30).
  split; [done|]. split; [done|]. split; [by apply composite_length|]. split.
  - intros y x Hy Hx.
    assert (vget 0%Q mask (y * width + x) = 0%Q \/
            vget 0%Q mask (y * width + x) = 1%Q) as Hbin
      by (by apply hysteresis_binary).
    split; [done|].
    pose proof (composite_pixels mask width height stride buffer Hgeo Hlen
                  y x Hy Hx) as Hpix.
    pose proof (f_equal r Hpix) as Hr. pose proof (f_equal g Hpix) as Hg.
    pose proof (f_equal b Hpix) as Hb. clear Hpix. simpl in Hr, Hg, Hb.
    destruct Hbin as [Hm | Hm]; rewrite Hm in *.
    + change (Float.ltb 0 0) with false in Hr.
      split; [done|]. intros _. unfold pixel_at. by rewrite Hr, Hg, Hb.
    + change (Float.ltb 0 1) with true in Hr.
      split; [|done]. intros _. rewrite Hr, Hg, Hb.
      pose proof (chan_range (vget x00 buffer (y * stride + 3 * x))) as Hc.
      rewrite chan_u8_of_Z. split; [|done].
      apply Z.mod_small. rewrite chan_highlight. lia.
  - intros n Hn. by apply composite_other_bytes.
Qed.

Lemma compositor_effect_witness :
  let gl := run 2 1 8 [frame_a] fresh in
  let out := filter_impl gl frame_b 2 1 8 3 in
  let mask := motion_mask out.1 in
  chan highlight = 127 /\
  out.2 = composite mask 2 1 8 frame_b /\
  length out.2 = length frame_b /\
  (forall y x, 0 <= y < 1 -> 0 <= x < 2 ->
     let m := vget 0%Q mask (y * 2 + x) in
     let old := pixel_at frame_b 8 y x in
     let new := pixel_at out.2 8 y x in
     (m = 0%Q \/ m = 1%Q) /\
     (m <> 0%Q ->
      chan (r new) = Z.min 255 (chan (r old) + chan highlight) /\
      g new = g old /\ b new = b old) /\
     (m = 0%Q -> new = old)) /\
  (forall n,
     (forall y x, 0 <= y < 1 -> 0 <= x < 2 ->
        n <> Z.to_nat (y * 8 + 3 * x)) ->
     out.2 !! n = frame_b !! n).
Proof.
  apply (compositor_effect (run 2 1 8 [frame_a] fresh) frame_b 2 1 8 3).
  - vm_compute. discriminate.
  - lia.
  - vm_compute. discriminate.
Defined.

(** * The Morphological Filter *)

Lemma disk_fold_values op init temp_mask width radius x y :
  disk_fold op init temp_mask width radius x y =
  fold_left op (disk_values temp_mask width radius x y) init.
Proof.
  unfold disk_fold, disk_values, disk_offsets.
  rewrite (nested_for_cells (- radius) (radius + 1) (- radius) (radius + 1)
             (fun dy dx acc =>
                if dx * dx + dy * dy <=? radius * radius
                then op acc (vget 0%Q temp_mask ((y + dy) * width + (x + dx)))
                else acc)).
  generalize (cells (- radius) (radius + 1) (- radius) (radius + 1)) as l.
  intros l. revert init.
  induction l as [|c l IH]; intros init; simpl; [done|].
  destruct (_ <=? _); simpl; apply IH.
Qed.

Section morph_cells.
Variables (op : Q -> Q -> Q) (init : Q) (temp_mask : list Q).
Variables (width height radius : Z) (m0 : list Q).

Hypothesis radius_nonneg : 0 <= radius.
Hypothesis mask_len : (Z.to_nat (width * height) <= length m0)%nat.

Let obs (m : list Q) (n : nat) : option Q := m !! n.
Let body (c : Z * Z) (m : list Q) : list Q :=
  vset m (c.1 * width + c.2) (disk_fold op init temp_mask width radius c.2 c.1).
Let Inv (m : list Q) : Prop := length m = length m0.
Let Post (c : Z * Z) (v : option Q) : Prop :=
  v = Some (disk_fold op init temp_mask width radius c.2 c.1).

Lemma morph_pass_midway :
  midway (idx_of width) obs Inv Post m0
         (cells radius (height - radius) radius (width - radius))
         (morph_pass op init temp_mask width height radius m0).
Proof.
  unfold morph_pass.
  rewrite (nested_for_cells radius (height - radius) radius (width - radius)
             (fun y x m =>
                vset m (y * width + x)
                     (disk_fold op init temp_mask width radius x y))).
  apply (pass_post (idx_of width) obs body Inv Post m0).
  - intros c m n Hn. unfold body, obs, vset. by rewrite list_lookup_insert_ne.
  - apply NoDup_idx; lia.
  - done.
  - intros l1 [y x] l2 m Hl _ (Hinv & _).
    assert ((y, x) ∈ cells radius (height - radius) radius (width - radius))
      as [Hy Hx]%elem_of_cells by (rewrite Hl, elem_of_app; right; by left).
    assert (Hlt : (Z.to_nat (y * width + x) < Z.to_nat (width * height))%nat)
      by (apply idx_lt; lia).
    unfold Inv in Hinv. unfold body, Post, obs, idx_of, vset. simpl. split.
    + unfold Inv. by rewrite length_insert.
    + by rewrite list_lookup_insert_eq by lia.
Qed.

(** An interior pixel receives the fold over its disk. *)
Lemma morph_pass_interior y x :
  radius <= y < height - radius -> radius <= x < width - radius ->
  vget 0%Q (morph_pass op init temp_mask width height radius m0)
       (y * width + x) =
  disk_fold op init temp_mask width radius x y.
Proof.
  intros Hy Hx. destruct morph_pass_midway as (_ & _ & Hpost).
  apply vget_lookup. apply (Hpost (y, x)). by apply elem_of_cells.
Qed.

(** A pixel within [radius] of an edge is not written. *)
Lemma morph_pass_border y x :
  0 <= y < height -> 0 <= x < width ->
  ~ (radius <= y < height - radius /\ radius <= x < width - radius) ->
  vget 0%Q (morph_pass op init temp_mask width height radius m0)
       (y * width + x) =
  vget 0%Q m0 (y * width + x).
Proof.
  intros Hy Hx Hborder. destruct morph_pass_midway as (_ & Hun & _).
  unfold vget. f_equal. apply Hun.
  intros ([y' x'] & Heq & [? ?]%elem_of_cells)%list_elem_of_fmap.
  unfold idx_of in Heq. simpl in Heq.
  apply idx_inj in Heq as [-> ->]; [|lia..]. apply Hborder. lia.
Qed.
End morph_cells.

(** What the erosion pass computes: at an interior pixel the running
    minimum over the disk read from the mask as it was before the pass,
    started at 255; at a border pixel nothing. *)
Lemma erode_interior m width height radius y x :
  0 <= radius -> (Z.to_nat (width * height) <= length m)%nat ->
  radius <= y < height - radius -> radius <= x < width - radius ->
  vget 0%Q (erode m width height radius) (y * width + x) =
  fold_left Float.min (disk_values m width radius x y) 255%Q.
Proof.
  intros Hr Hlen Hy Hx. unfold erode.
  rewrite morph_pass_interior by done. apply disk_fold_values.
Qed.

Lemma erode_border m width height radius y x :
  0 <= radius -> (Z.to_nat (width * height) <= length m)%nat ->
  0 <= y < height -> 0 <= x < width ->
  ~ (radius <= y < height - radius /\ radius <= x < width - radius) ->
  vget 0%Q (erode m width height radius) (y * width + x) =
  vget 0%Q m (y * width + x).
Proof. intros Hr Hlen Hy Hx Hb. unfold erode. by apply morph_pass_border. Qed.

(** [std::min] on floats is the minimum of the rationals. *)
Lemma min_Qmin a b : (Float.min a b == Qmin a b)%Q.
Proof.
  apply Q.min_unicity. unfold Float.min.
  destruct (Float.ltb b a) eqn:Hba.
  - right. apply ltb_lt in Hba. split; [by apply Qlt_le_weak | reflexivity].
  - apply ltb_ge in Hba. destruct (Qlt_le_dec a b) as [Hlt|Hle].
    + left. split; [done | reflexivity].
    + right. split; [done|]. by apply Qle_antisym.
Qed.

#[local] Instance min_proper : Proper (Qeq ==> Qeq ==> Qeq) Float.min.
Proof. intros a a' Ha c c' Hc. by rewrite !min_Qmin, Ha, Hc. Qed.

Lemma fold_min_proper l p p' :
  (p == p')%Q -> (fold_left Float.min l p == fold_left Float.min l p')%Q.
Proof.
  revert p p'. induction l as [|q l IH]; intros p p' Hp; simpl; [done|].
  apply IH. by rewrite Hp.
Qed.

Lemma fold_min_init l a x :
  (fold_left Float.min l (Float.min a x) ==
   Float.min a (fold_left Float.min l x))%Q.
Proof.
  revert x. induction l as [|q l IH]; intros x; simpl; [reflexivity|].
  rewrite <- IH. apply fold_min_proper.
  rewrite !min_Qmin. symmetry. apply Q.min_assoc.
Qed.

(** The erosion pass on an interior pixel: the minimum over the disk,
    capped at 255. *)
Lemma erode_interior_capped m width height radius y x q :
  0 <= radius -> (Z.to_nat (width * height) <= length m)%nat ->
  radius <= y < height - radius -> radius <= x < width - radius ->
  spec_erosion_value m width radius x y = Some q ->
  (vget 0%Q (erode m width height radius) (y * width + x) ==
   Float.min 255 q)%Q.
Proof.
  intros Hr Hlen Hy Hx Hq. rewrite erode_interior by done.
  unfold spec_erosion_value, minimum in Hq.
  destruct (disk_values m width radius x y) as [|v l]; [done|].
  inversion Hq; subst. simpl. apply fold_min_init.
Qed.

(** C3 (the eroded value of an interior pixel is the minimum over its
    disk, also for intensities above 255) does not hold of the code.
    After a black 7x7 frame and a white one, every mask value is the
    distance sqrt(3 * 255^2), about 441.67, so that is the minimum over
    the disk of the centre pixel; the erosion pass writes 255.0, the
    value its running minimum starts from. *)
Theorem erosion_capped_at_255 :
  let gl := after_detector (run 7 7 21 [gray 49 x00] fresh) (gray 49 xff) 7 7 21 in
  let m := motion_mask gl in
  radius_of 7 7 = 3 /\
  m = replicate 49 (14472739 # 32768)%Q /\
  spec_erosion_value m 7 3 3 3 = Some (14472739 # 32768)%Q /\
  vget 0%Q (erode m 7 7 3) (3 * 7 + 3) = 255%Q.
Proof. vm_compute. by repeat split. Qed.

(** * The Difference Detector inside a Running-state call *)

(** A Running-state call, stage by stage. *)
Lemma filter_impl_running gl buffer width height stride pixel_stride :
  pixel_states gl <> [] ->
  filter_impl gl buffer width height stride pixel_stride =
  let gl' := after_detector gl buffer width height stride in
  let mask :=
    applyHysteresisThresholding
      (applyMorphologicalOpening (motion_mask gl') width height
                                 (radius_of width height))
      width height 4 30 in
  ({| pixel_states := pixel_states gl'; motion_mask := mask |},
   composite mask width height stride buffer).
Proof.
  intros Hne. unfold filter_impl, after_detector.
  by destruct (pixel_states gl).
Qed.

(** The mask after the detector step: the distance where it is 25 or
    more, and elsewhere whatever the entry held when the call began. *)
Lemma after_detector_mask gl buffer width height stride y x :
  (Z.to_nat (width * height) <= length (pixel_states gl))%nat ->
  motion_mask gl = [] \/
  (Z.to_nat (width * height) <= length (motion_mask gl))%nat ->
  0 <= y < height -> 0 <= x < width ->
  vget 0%Q (motion_mask (after_detector gl buffer width height stride))
       (y * width + x) =
  next_mask (pixel_at buffer stride y x)
            (vget zero_state (pixel_states gl) (y * width + x))
            (vget 0%Q (motion_mask gl) (y * width + x)).
Proof.
  intros Hps Hmm Hy Hx. unfold after_detector.
  pose proof (idx_lt width height y x Hy Hx) as Hlt.
  destruct (detect_cell buffer width height stride
              {| pixel_states := pixel_states gl;
                 motion_mask := alloc_mask width height (motion_mask gl) |})
    with (y := y) (x := x) as [_ Hmask]; [done..|].
  simpl in Hmask. rewrite Hmask.
  - f_equal. destruct Hmm as [-> | Hmm]; simpl; [apply vget_zeros|].
    destruct (motion_mask gl); [simpl in Hmm; lia | done].
  - destruct Hmm as [-> | Hmm]; simpl; [by rewrite length_replicate|].
    destruct (motion_mask gl); simpl in *; lia.
Qed.

(** C2 (the detector overwrites the whole mask: the distance where it
    is 25 or more, 0 elsewhere) does not hold of the code.  After a
    black, a white and again a black 1x1 frame, the pixel is at distance
    0 from its estimate, and the mask entry after the detector step of
    the third call is the 1.0 left there by the second call, not 0: the
    branch for a distance below 25 does not write the mask. *)
Theorem detector_keeps_old_mask_value :
  let gl := run 1 1 3 [black_1x1; white_1x1] fresh in
  let gl' := after_detector gl black_1x1 1 1 3 in
  motion_mask gl = [1%Q] /\
  Float.ltb (colorDistance (pixel_at black_1x1 3 0 0)
               (bg_rgb (vget zero_state (pixel_states gl) 0))) 25%Q = true /\
  motion_mask gl' = [1%Q].
Proof. vm_compute. by repeat split. Qed.

(** * The rounded square root against integer thresholds *)

(** Rounding the root to 24 bits never moves it across an integer
    threshold: the float distance is below [t] exactly when the squared
    distance is below [t * t]. *)
Lemma sqrt_below_iff n t :
  0 <= n <= 195075 -> 0 < t < 32768 ->
  Float.ltb (Float.sqrt n) (inject_Z t) = true <-> n < t * t.
Proof.
  intros Hn Ht. unfold Float.sqrt.
  destruct (Z.leb_spec n 0) as [H0|Hpos].
  { assert (n = 0) as -> by lia. unfold Float.ltb. simpl.
    rewrite Z.ltb_lt. nia. }
  set (e := Z.log2 (Z.sqrt n)).
  assert (He : 0 <= e <= 8).
  { split; [apply Z.log2_nonneg|].
    change 8 with (Z.log2 441). apply Z.log2_le_mono.
    change 441 with (Z.sqrt 195075). apply Z.sqrt_le_mono. lia. }
  set (k := 23 - e). assert (Hk : 15 <= k <= 23) by lia.
  set (P := 2 ^ k).
  assert (HP : 32768 <= P).
  { change 32768 with (2 ^ 15). apply Z.pow_le_mono_r; lia. }
  assert (H4 : 4 ^ k = P * P).
  { change 4 with (2 * 2). apply Z.pow_mul_l. }
  rewrite H4. set (s := n * (P * P)).
  assert (Hs : 0 <= s) by (unfold s; nia).
  pose proof (Z.sqrt_spec s Hs) as Hm. set (m := Z.sqrt s) in *.
  assert (Hm0 : 0 <= m) by apply Z.sqrt_nonneg.
  unfold Float.ltb. simpl. rewrite Z2Pos.id by lia.
  rewrite Z.ltb_lt, Z.mul_1_r. unfold Z.succ in Hm.
  destruct (Z.ltb_spec (m * m + m) s) as [Hup|Hdown]; unfold s in *; nia.
Qed.

Lemma sqdist_range p1 p2 : 0 <= sqdist p1 p2 <= 195075.
Proof.
  assert (Hsq : forall c c', 0 <= (chan c - chan c') * (chan c - chan c') <= 65025).
  { intros c c'. pose proof (chan_range c). pose proof (chan_range c').
    assert (-255 <= chan c - chan c' <= 255) as Hd by lia.
    generalize dependent (chan c - chan c'). intros d Hd. nia. }
  unfold sqdist.
  pose proof (Hsq (r p1) (r p2)). pose proof (Hsq (g p1) (g p2)).
  pose proof (Hsq (b p1) (b p2)). lia.
Qed.

(** The detector's test [distance < 25.0f] is the integer test on the
    squared distance. *)
Lemma distance_below_25 p1 p2 :
  Float.ltb (colorDistance p1 p2) 25%Q = true <-> sqdist p1 p2 < 625.
Proof.
  change (colorDistance p1 p2) with (Float.sqrt (sqdist p1 p2)).
  change 25%Q with (inject_Z 25).
  rewrite sqrt_below_iff; [lia | apply sqdist_range | lia].
Qed.

(** * Further properties of the code *)

(** ** colorDistance *)

(** X1.  The colour distance is symmetric in its two pixels. *)
Theorem colorDistance_sym p1 p2 : colorDistance p1 p2 = colorDistance p2 p1.
Proof. unfold colorDistance. f_equal. ring. Qed.

Lemma sqdist_zero_iff p1 p2 : sqdist p1 p2 = 0 <-> p1 = p2.
Proof.
  split.
  - unfold sqdist. intros Hz.
    pose proof (Z.square_nonneg (chan (r p1) - chan (r p2))) as H1.
    pose proof (Z.square_nonneg (chan (g p1) - chan (g p2))) as H2.
    pose proof (Z.square_nonneg (chan (b p1) - chan (b p2))) as H3.
    assert (forall d, d * d = 0 -> d = 0) as Hsq by (intros d; nia).
    assert (chan (r p1) = chan (r p2)) as Hr
      by (apply Z.sub_move_0_r, Hsq; lia).
    assert (chan (g p1) = chan (g p2)) as Hg
      by (apply Z.sub_move_0_r, Hsq; lia).
    assert (chan (b p1) = chan (b p2)) as Hb
      by (apply Z.sub_move_0_r, Hsq; lia).
    apply chan_inj in Hr, Hg, Hb. destruct p1, p2. simpl in *. congruence.
  - intros ->. unfold sqdist. lia.
Qed.

Lemma sqrt_nonneg n : (0 <= Float.sqrt n)%Q.
Proof.
  unfold Float.sqrt. destruct (n <=? 0); [done|].
  unfold Qle. simpl. rewrite Z.mul_1_r.
  pose proof (Z.sqrt_nonneg (n * 4 ^ (23 - Z.log2 (Z.sqrt n)))).
  destruct (_ <? _); lia.
Qed.

(** X2.  The colour distance of two pixels is zero exactly when the two
    pixels have the same three channel values. *)
Theorem colorDistance_zero_iff p1 p2 :
  (colorDistance p1 p2 == 0)%Q <-> p1 = p2.
Proof.
  change (colorDistance p1 p2) with (Float.sqrt (sqdist p1 p2)).
  rewrite <- sqdist_zero_iff. pose proof (sqdist_range p1 p2) as Hrange.
  split.
  - intros Hz.
    assert (Float.ltb (Float.sqrt (sqdist p1 p2)) (inject_Z 1) = true) as Hlt
      by (apply ltb_lt; rewrite Hz; done).
    apply sqrt_below_iff in Hlt; lia.
  - intros ->. reflexivity.
Qed.

(** X3.  Comparing the colour distance with an integer threshold [t] is
    comparing the integer squared distance with [t * t]: the rounding of
    the square root to a float never moves it across an integer. *)
Theorem distance_threshold p1 p2 t :
  0 < t < 32768 ->
  (Float.ltb (colorDistance p1 p2) (inject_Z t) = true <->
   sqdist p1 p2 < t * t).
Proof.
  intros Ht. change (colorDistance p1 p2) with (Float.sqrt (sqdist p1 p2)).
  apply sqrt_below_iff; [apply sqdist_range | done].
Qed.

Lemma distance_threshold_witness :
  Float.ltb (colorDistance {| r := x32; g := x00; b := x00 |}
                           {| r := x1a; g := x00; b := x00 |})
            (inject_Z 25) = true <->
  sqdist {| r := x32; g := x00; b := x00 |}
         {| r := x1a; g := x00; b := x00 |} < 25 * 25.
Proof. apply distance_threshold. lia. Defined.

(** X4.  Every colour distance lies in the interval from 0 (included) to
    442 (excluded): the largest one, between black and white, is about
    441.67. *)
Theorem colorDistance_range p1 p2 :
  (0 <= colorDistance p1 p2)%Q /\ (colorDistance p1 p2 < 442)%Q.
Proof.
  change (colorDistance p1 p2) with (Float.sqrt (sqdist p1 p2)).
  split; [apply sqrt_nonneg|].
  apply ltb_lt. change 442%Q with (inject_Z 442).
  apply sqrt_below_iff; [apply sqdist_range | lia |].
  pose proof (sqdist_range p1 p2). lia.
Qed.

(** ** applyMorphologicalOpening *)

Lemma min_le_l a c : (Float.min a c <= a)%Q.
Proof.
  unfold Float.min. destruct (Float.ltb c a) eqn:Hlt.
  - apply Qlt_le_weak. by apply ltb_lt.
  - apply Qle_refl.
Qed.

Lemma min_le_r a c : (Float.min a c <= c)%Q.
Proof.
  unfold Float.min. destruct (Float.ltb c a) eqn:Hlt.
  - apply Qle_refl.
  - by apply ltb_ge.
Qed.

Lemma max_ge_l a c : (a <= Float.max a c)%Q.
Proof.
  unfold Float.max. destruct (Float.ltb a c) eqn:Hlt.
  - apply Qlt_le_weak. by apply ltb_lt.
  - apply Qle_refl.
Qed.

Lemma max_ge_r a c : (c <= Float.max a c)%Q.
Proof.
  unfold Float.max. destruct (Float.ltb a c) eqn:Hlt.
  - apply Qle_refl.
  - by apply ltb_ge.
Qed.

Lemma fold_min_le_init l a : (fold_left Float.min l a <= a)%Q.
Proof.
  revert a. induction l as [|q l IH]; intros a; simpl; [apply Qle_refl|].
  eapply Qle_trans; [apply IH | apply min_le_l].
Qed.

Lemma fold_min_le_elem l a q :
  In q l -> (fold_left Float.min l a <= q)%Q.
Proof.
  revert a. induction l as [|q' l IH]; intros a Hin; simpl; [done|].
  destruct Hin as [-> | Hin]; [|by apply IH].
  eapply Qle_trans; [apply fold_min_le_init | apply min_le_r].
Qed.

Lemma fold_max_ge_init l a : (a <= fold_left Float.max l a)%Q.
Proof.
  revert a. induction l as [|q l IH]; intros a; simpl; [apply Qle_refl|].
  eapply Qle_trans; [apply max_ge_l | apply IH].
Qed.

Lemma fold_max_ge_elem l a q :
  In q l -> (q <= fold_left Float.max l a)%Q.
Proof.
  revert a. induction l as [|q' l IH]; intros a Hin; simpl; [done|].
  destruct Hin as [-> | Hin]; [|by apply IH].
  eapply Qle_trans; [apply max_ge_r | apply fold_max_ge_init].
Qed.

Lemma fold_min_attained l a :
  fold_left Float.min l a = a \/ In (fold_left Float.min l a) l.
Proof.
  revert a. induction l as [|q l IH]; intros a; simpl; [by left|].
  destruct (IH (Float.min a q)) as [-> | Hin]; [|by right; right].
  unfold Float.min. destruct (Float.ltb q a); [right; by left | by left].
Qed.

Lemma fold_max_attained l a :
  fold_left Float.max l a = a \/ In (fold_left Float.max l a) l.
Proof.
  revert a. induction l as [|q l IH]; intros a; simpl; [by left|].
  destruct (IH (Float.max a q)) as [-> | Hin]; [|by right; right].
  unfold Float.max. destruct (Float.ltb a q); [right; by left | by left].
Qed.

(** The disk of a non-negative radius contains its centre. *)
Lemma disk_values_centre m width radius x y :
  0 <= radius -> In (vget 0%Q m (y * width + x)) (disk_values m width radius x y).
Proof.
  intros Hr. unfold disk_values, disk_offsets.
  apply in_map_iff. exists (0, 0). simpl. split.
  - by rewrite !Z.add_0_r.
  - apply filter_In. split.
    + apply list_elem_of_In, elem_of_cells. lia.
    + apply Z.leb_le. simpl. nia.
Qed.

Lemma dilate_interior m width height radius y x :
  0 <= radius -> (Z.to_nat (width * height) <= length m)%nat ->
  radius <= y < height - radius -> radius <= x < width - radius ->
  vget 0%Q (dilate m width height radius) (y * width + x) =
  fold_left Float.max (disk_values m width radius x y) 0%Q.
Proof.
  intros Hr Hlen Hy Hx. unfold dilate.
  rewrite morph_pass_interior by done. apply disk_fold_values.
Qed.

Lemma dilate_border m width height radius y x :
  0 <= radius -> (Z.to_nat (width * height) <= length m)%nat ->
  0 <= y < height -> 0 <= x < width ->
  ~ (radius <= y < height - radius /\ radius <= x < width - radius) ->
  vget 0%Q (dilate m width height radius) (y * width + x) =
  vget 0%Q m (y * width + x).
Proof. intros Hr Hlen Hy Hx Hb. unfold dilate. by apply morph_pass_border. Qed.

Lemma interior_dec radius width height y x :
  {radius <= y < height - radius /\ radius <= x < width - radius} +
  {~ (radius <= y < height - radius /\ radius <= x < width - radius)}.
Proof.
  destruct (Z_le_dec radius y), (Z_lt_dec y (height - radius)),
    (Z_le_dec radius x), (Z_lt_dec x (width - radius)); (left; lia) || (right; lia).
Qed.

(** X5.  The erosion pass never raises a value: at every pixel of the
    frame the eroded value is at most the value before the pass.  At an
    interior pixel it is the least of 255 and the values in the disk
    around the pixel (at most each of them, and one of them); a pixel
    within [radius] of an edge keeps its value. *)
Theorem erosion_lowers m width height radius y x :
  0 <= radius -> (Z.to_nat (width * height) <= length m)%nat ->
  0 <= y < height -> 0 <= x < width ->
  let v := vget 0%Q (erode m width height radius) (y * width + x) in
  (v <= vget 0%Q m (y * width + x))%Q /\
  (radius <= y < height - radius -> radius <= x < width - radius ->
   (v <= 255)%Q /\
   (forall q, In q (disk_values m width radius x y) -> (v <= q)%Q) /\
   (v = 255%Q \/ In v (disk_values m width radius x y))) /\
  (~ (radius <= y < height - radius /\ radius <= x < width - radius) ->
   v = vget 0%Q m (y * width + x)).
Proof.
  intros Hr Hlen Hy Hx. simpl. split; [|split].
  - destruct (interior_dec radius width height y x) as [[Hiy Hix] | Hb].
    + rewrite erode_interior by done.
      apply fold_min_le_elem. by apply disk_values_centre.
    + rewrite erode_border by done. apply Qle_refl.
  - intros Hiy Hix. rewrite erode_interior by done. split; [|split].
    + apply fold_min_le_init.
    + intros q Hq. by apply fold_min_le_elem.
    + apply fold_min_attained.
  - intros Hb. by apply erode_border.
Qed.

Lemma erosion_lowers_witness :
  let m := <[40%nat := 100%Q]> (replicate 81 7%Q) in
  let v := vget 0%Q (erode m 9 9 3) (4 * 9 + 4) in
  (v <= vget 0%Q m (4 * 9 + 4))%Q /\
  (3 <= 4 < 9 - 3 -> 3 <= 4 < 9 - 3 ->
   (v <= 255)%Q /\
   (forall q, In q (disk_values m 9 3 4 4) -> (v <= q)%Q) /\
   (v = 255%Q \/ In v (disk_values m 9 3 4 4))) /\
  (~ (3 <= 4 < 9 - 3 /\ 3 <= 4 < 9 - 3) ->
   v = vget 0%Q m (4 * 9 + 4)).
Proof.
  apply (erosion_lowers (<[40%nat := 100%Q]> (replicate 81 7%Q)) 9 9 3 4 4).
  - lia.
  - vm_compute. lia.
  - lia.
  - lia.
Defined.

(** X6.  The dilation pass never lowers a value: at every pixel of the
    frame the dilated value is at least the value before the pass.  At
    an interior pixel it is the greatest of 0 and the values in the disk
    around the pixel (at least each of them, and one of them); a pixel
    within [radius] of an edge keeps its value. *)
Theorem dilation_raises m width height radius y x :
  0 <= radius -> (Z.to_nat (width * height) <= length m)%nat ->
  0 <= y < height -> 0 <= x < width ->
  let v := vget 0%Q (dilate m width height radius) (y * width + x) in
  (vget 0%Q m (y * width + x) <= v)%Q /\
  (radius <= y < height - radius -> radius <= x < width - radius ->
   (0 <= v)%Q /\
   (forall q, In q (disk_values m width radius x y) -> (q <= v)%Q) /\
   (v = 0%Q \/ In v (disk_values m width radius x y))) /\
  (~ (radius <= y < height - radius /\ radius <= x < width - radius) ->
   v = vget 0%Q m (y * width + x)).
Proof.
  intros Hr Hlen Hy Hx. simpl. split; [|split].
  - destruct (interior_dec radius width height y x) as [[Hiy Hix] | Hb].
    + rewrite dilate_interior by done.
      apply fold_max_ge_elem. by apply disk_values_centre.
    + rewrite dilate_border by done. apply Qle_refl.
  - intros Hiy Hix. rewrite dilate_interior by done. split; [|split].
    + apply fold_max_ge_init.
    + intros q Hq. by apply fold_max_ge_elem.
    + apply fold_max_attained.
  - intros Hb. by apply dilate_border.
Qed.

Lemma dilation_raises_witness :
  let m := <[40%nat := 100%Q]> (replicate 81 7%Q) in
  let v := vget 0%Q (dilate m 9 9 3) (4 * 9 + 5) in
  (vget 0%Q m (4 * 9 + 5) <= v)%Q /\
  (3 <= 4 < 9 - 3 -> 3 <= 5 < 9 - 3 ->
   (0 <= v)%Q /\
   (forall q, In q (disk_values m 9 3 5 4) -> (q <= v)%Q) /\
   (v = 0%Q \/ In v (disk_values m 9 3 5 4))) /\
  (~ (3 <= 4 < 9 - 3 /\ 3 <= 5 < 9 - 3) ->
   v = vget 0%Q m (4 * 9 + 5)).
Proof.
  apply (dilation_raises (<[40%nat := 100%Q]> (replicate 81 7%Q)) 9 9 3 4 5).
  - lia.
  - vm_compute. lia.
  - lia.
  - lia.
Defined.

Lemma min_mono a a' c c' :
  (a <= a')%Q -> (c <= c')%Q -> (Float.min a c <= Float.min a' c')%Q.
Proof.
  intros Ha Hc. unfold Float.min at 2. destruct (Float.ltb c' a').
  - eapply Qle_trans; [apply min_le_r | done].
  - eapply Qle_trans; [apply min_le_l | done].
Qed.

Lemma max_mono a a' c c' :
  (a <= a')%Q -> (c <= c')%Q -> (Float.max a c <= Float.max a' c')%Q.
Proof.
  intros Ha Hc. unfold Float.max at 1. destruct (Float.ltb a c).
  - eapply Qle_trans; [done | apply max_ge_r].
  - eapply Qle_trans; [done | apply max_ge_l].
Qed.

Section morph_mono.
Variable op : Q -> Q -> Q.
Hypothesis op_mono : forall a a' c c',
  (a <= a')%Q -> (c <= c')%Q -> (op a c <= op a' c')%Q.

Lemma disk_fold_mono init t2 t1 width radius x y :
  Forall2 Qle t2 t1 ->
  (disk_fold op init t2 width radius x y <=
   disk_fold op init t1 width radius x y)%Q.
Proof.
  intros Ht. unfold disk_fold.
  apply (for_invariant2 Qle); [apply Qle_refl|].
  intros dy a2 a1 _ Ha. apply (for_invariant2 Qle); [done|].
  intros dx a2' a1' _ Ha'. destruct (_ <=? _); [|done].
  apply op_mono; [done | by apply Forall2_vget].
Qed.

Lemma morph_pass_mono init t2 t1 width height radius m2 m1 :
  Forall2 Qle t2 t1 -> Forall2 Qle m2 m1 ->
  Forall2 Qle (morph_pass op init t2 width height radius m2)
              (morph_pass op init t1 width height radius m1).
Proof.
  intros Ht Hm. unfold morph_pass.
  apply (for_invariant2 (Forall2 Qle)); [done|].
  intros y' a2 a1 _ Ha. apply (for_invariant2 (Forall2 Qle)); [done|].
  intros x' a2' a1' _ Ha'. apply Forall2_vset; [done|].
  by apply disk_fold_mono.
Qed.
End morph_mono.

(** X7.  The opening is monotone: raising intensities of the mask that
    goes in never lowers an intensity of the mask that comes out. *)
Theorem opening_monotone m2 m1 width height radius :
  Forall2 Qle m2 m1 ->
  Forall2 Qle (applyMorphologicalOpening m2 width height radius)
              (applyMorphologicalOpening m1 width height radius).
Proof.
  intros Hm. unfold applyMorphologicalOpening, dilate, erode.
  assert (Forall2 Qle
            (morph_pass Float.min 255 m2 width height radius m2)
            (morph_pass Float.min 255 m1 width height radius m1)) as He
    by (apply morph_pass_mono; [apply min_mono | done..]).
  apply morph_pass_mono; [apply max_mono | done..].
Qed.

Lemma opening_monotone_witness :
  Forall2 Qle
    (applyMorphologicalOpening (<[24%nat := 5%Q]> (replicate 49 40%Q)) 7 7 3)
    (applyMorphologicalOpening (replicate 49 40%Q) 7 7 3).
Proof.
  apply (opening_monotone (<[24%nat := 5%Q]> (replicate 49 40%Q))
           (replicate 49 40%Q) 7 7 3).
  vm_compute. repeat (constructor; [discriminate|]). constructor.
Defined.

(** The sweep of the stabilizer is monotone in the mask and antitone in
    both thresholds, step by step. *)
Lemma hysteresis_pixel_mono3 width height low1 low2 high1 high2 x y m2 m1 :
  (low1 <= low2)%Q -> (high1 <= high2)%Q -> Forall2 Qle m2 m1 ->
  Forall2 Qle (hysteresis_pixel width height low2 high2 x y m2)
              (hysteresis_pixel width height low1 high1 x y m1).
Proof.
  intros Hlow Hhigh Hm. unfold hysteresis_pixel.
  pose proof (Forall2_vget m2 m1 (y * width + x) Hm) as Hv.
  set (v2 := vget 0%Q m2 (y * width + x)) in *.
  set (v1 := vget 0%Q m1 (y * width + x)) in *.
  assert (H01 : (0 <= 1)%Q) by done.
  destruct (Float.leb high2 v2) eqn:Hs2.
  - apply leb_le in Hs2.
    assert (Float.leb high1 v1 = true) as ->.
    { apply leb_le. eapply Qle_trans; [exact Hhigh|]. by eapply Qle_trans. }
    apply Forall2_vset; [done | apply Qle_refl].
  - destruct (Float.ltb v2 low2) eqn:Ha2.
    + destruct (Float.leb high1 v1); [by apply Forall2_vset|].
      destruct (Float.ltb v1 low1); [apply Forall2_vset; [done|apply Qle_refl]|].
      apply Forall2_vset; [done|]. by destruct (strong_neighbor m1 _ _ _ _ _).
    + destruct (Float.leb high1 v1).
      { apply Forall2_vset; [done|]. by destruct (strong_neighbor m2 _ _ _ _ _). }
      assert (Float.ltb v1 low1 = false) as ->.
      { apply ltb_ge. apply ltb_ge in Ha2.
        eapply Qle_trans; [exact Hlow|]. by eapply Qle_trans. }
      apply Forall2_vset; [done|].
      destruct (strong_neighbor m2 _ _ _ _ _) eqn:Hn2.
      * by rewrite (strong_neighbor_mono m2 m1 width height high1 high2 x y).
      * by destruct (strong_neighbor m1 _ _ _ _ _).
Qed.

(** X8.  The Hysteresis Stabilizer is monotone in the mask and antitone
    in both thresholds: with higher intensities, a lower [low_thresh] or
    a lower [high_thresh], no entry of the result gets smaller. *)
Theorem hysteresis_monotone m2 m1 width height low1 low2 high1 high2 :
  (low1 <= low2)%Q -> (high1 <= high2)%Q -> Forall2 Qle m2 m1 ->
  Forall2 Qle (applyHysteresisThresholding m2 width height low2 high2)
              (applyHysteresisThresholding m1 width height low1 high1).
Proof.
  intros Hlow Hhigh Hm. unfold applyHysteresisThresholding.
  apply (for_invariant2 (Forall2 Qle)); [done|].
  intros y a2 a1 _ Ha. apply (for_invariant2 (Forall2 Qle)); [done|].
  intros x a2' a1' _ Ha'. by apply hysteresis_pixel_mono3.
Qed.

Lemma hysteresis_monotone_witness :
  Forall2 Qle (applyHysteresisThresholding [10%Q; 20%Q; 5%Q] 3 1 8 35)
              (applyHysteresisThresholding [10%Q; 32%Q; 5%Q] 3 1 4 30).
Proof.
  apply (hysteresis_monotone [10%Q; 20%Q; 5%Q] [10%Q; 32%Q; 5%Q] 3 1 4 8 30 35).
  - vm_compute. discriminate.
  - vm_compute. discriminate.
  - repeat (constructor; [vm_compute; discriminate|]). constructor.
Defined.

Lemma opening_identity_small m width height :
  Z.min width height <= 6 ->
  applyMorphologicalOpening m width height (radius_of width height) = m.
Proof.
  intros Hsmall. pose proof (radius_of_pos width height) as Hr.
  assert (Hpass : forall op init t m',
    morph_pass op init t width height (radius_of width height) m' = m').
  { intros op init t m'. unfold morph_pass.
    destruct (Z_le_dec height 6) as [Hh|Hh]; [apply for_empty; lia|].
    apply (for_invariant (fun a => a = m')); [done|].
    intros y a _ ->. apply for_empty. lia. }
  unfold applyMorphologicalOpening, dilate, erode. by rewrite !Hpass.
Qed.

(** X9.  With the radius the filter uses, [max(3, min(width, height) /
    100)], a frame narrower or lower than 7 pixels has no interior
    pixel: the Morphological Filter returns the mask as it received
    it. *)
Theorem opening_identity_on_small_frames m width height :
  Z.min width height <= 6 ->
  applyMorphologicalOpening m width height (radius_of width height) = m.
Proof. apply opening_identity_small. Qed.

Lemma opening_identity_on_small_frames_witness :
  applyMorphologicalOpening [441%Q; 0%Q; 26%Q; 1%Q] 2 2 (radius_of 2 2) =
  [441%Q; 0%Q; 26%Q; 1%Q].
Proof.
  apply (opening_identity_on_small_frames [441%Q; 0%Q; 26%Q; 1%Q] 2 2).
  vm_compute. discriminate.
Defined.

(** ** applyHysteresisThresholding *)

Lemma hysteresis_length m width height low high :
  length (applyHysteresisThresholding m width height low high) = length m.
Proof.
  unfold applyHysteresisThresholding.
  apply (for_invariant (fun a => length a = length m)); [done|].
  intros y a _ Ha. apply (for_invariant (fun a => length a = length m)); [done|].
  intros x a' _ Ha'.
  destruct (hysteresis_pixel_cases width height low high x y a') as (v & _ & ->).
  by rewrite length_vset.
Qed.

(** Every position of a [width] x [height] vector is the position of a
    pixel. *)
Lemma idx_cell width height i :
  0 <= width -> (i < Z.to_nat (width * height))%nat ->
  exists y x, 0 <= y < height /\ 0 <= x < width /\ i = Z.to_nat (y * width + x).
Proof.
  intros Hw Hi.
  assert (Z.of_nat i < width * height) as Hlt by lia.
  assert (0 < width) as Hpos.
  { destruct (Z.eq_dec width 0) as [-> | Hne]; [|lia].
    rewrite Z.mul_0_l in Hlt. lia. }
  assert (0 < height) as Hh.
  { destruct (Z_le_dec height 0) as [Hle|]; [|lia].
    pose proof (Z.mul_nonneg_nonpos width height Hw Hle). lia. }
  exists (Z.of_nat i / width), (Z.of_nat i mod width).
  pose proof (Z.mod_pos_bound (Z.of_nat i) width Hpos) as Hmod.
  pose proof (Z.div_mod (Z.of_nat i) width ltac:(lia)) as Hdm.
  split; [split|split]; [apply Z.div_pos; lia | | done |].
  - apply Z.div_lt_upper_bound; lia.
  - rewrite Z.mul_comm, <- Hdm. by rewrite Nat2Z.id.
Qed.

(** X10.  Whatever the intensities and the thresholds, the Hysteresis
    Stabilizer turns a mask of [width * height] entries into a binary
    mask of the same size: every entry of the result is 0 or 1. *)
Theorem hysteresis_mask_is_binary m width height low high :
  0 <= width -> length m = Z.to_nat (width * height) ->
  let m' := applyHysteresisThresholding m width height low high in
  length m' = length m /\ Forall (fun v => v = 0%Q \/ v = 1%Q) m'.
Proof.
  intros Hw Hlen. simpl. split; [apply hysteresis_length|].
  apply Forall_lookup. intros i v Hv.
  assert (i < Z.to_nat (width * height))%nat as Hi.
  { rewrite <- Hlen, <- (hysteresis_length m width height low high).
    eapply lookup_lt_Some, Hv. }
  destruct (idx_cell width height i Hw Hi) as (y & x & Hy & Hx & ->).
  pose proof (hysteresis_binary width height low high m y x Hy Hx) as Hbin.
  simpl in Hbin. unfold vget in Hbin. by rewrite Hv in Hbin.
Qed.

Lemma hysteresis_mask_is_binary_witness :
  let m' := applyHysteresisThresholding [50%Q; 26%Q; 3%Q; 29%Q] 2 2 4 30 in
  length m' = length [50%Q; 26%Q; 3%Q; 29%Q] /\
  Forall (fun v => v = 0%Q \/ v = 1%Q) m'.
Proof.
  apply (hysteresis_mask_is_binary [50%Q; 26%Q; 3%Q; 29%Q] 2 2 4 30).
  - lia.
  - reflexivity.
Defined.

(** X11.  The single sweep, for a high threshold above 1 (the filter uses
    30): a pixel at or above it ends at 1; otherwise a pixel below the
    low threshold ends at 0; otherwise the pixel ends at 1 exactly when
    one of its east, south-west, south and south-east neighbours inside
    the frame was at or above the high threshold before the sweep.  The
    four neighbours visited earlier never promote a pixel. *)
Theorem hysteresis_single_sweep m width height low high y x :
  (1 < high)%Q -> (Z.to_nat (width * height) <= length m)%nat ->
  0 <= y < height -> 0 <= x < width ->
  let before := vget 0%Q m (y * width + x) in
  let after := vget 0%Q (applyHysteresisThresholding m width height low high)
                    (y * width + x) in
  ((high <= before)%Q -> after = 1%Q) /\
  ((before < high)%Q -> (before < low)%Q -> after = 0%Q) /\
  ((before < high)%Q -> (low <= before)%Q ->
   (after = 1%Q <->
    exists d, In d later_neighbors /\
              strong_at m width height high x y d = true) /\
   (after = 0%Q <->
    forall d, In d later_neighbors ->
              strong_at m width height high x y d = false)).
Proof.
  intros Hhigh Hlen Hy Hx. cbv zeta.
  rewrite (hysteresis_cell width height low high m Hhigh Hlen y x Hy Hx).
  unfold hysteresis_value. split; [|split].
  - intros Hs. apply leb_le in Hs. by rewrite Hs.
  - intros Hs Ha. apply leb_gt in Hs. apply ltb_lt in Ha. by rewrite Hs, Ha.
  - intros Hs Ha. apply leb_gt in Hs. apply ltb_ge in Ha. rewrite Hs, Ha.
    destruct (existsb _ later_neighbors) eqn:Hex.
    + apply existsb_exists in Hex. split; [by split|].
      split; [done|]. intros Hall. destruct Hex as (d & Hd & Hstrong).
      rewrite (Hall d Hd) in Hstrong. done.
    + split.
      * split; [done|]. intros Hex'. apply existsb_exists in Hex'.
        by rewrite Hex in Hex'.
      * split; [|done]. intros _ d Hd.
        destruct (strong_at m width height high x y d) eqn:Hstrong; [|done].
        assert (existsb (strong_at m width height high x y) later_neighbors
                = true) as Hex' by (apply existsb_exists; eauto).
        by rewrite Hex in Hex'.
Qed.

Lemma hysteresis_single_sweep_witness :
  let m := [26%Q; 50%Q; 50%Q; 26%Q] in
  let before := vget 0%Q m (0 * 2 + 0) in
  let after := vget 0%Q (applyHysteresisThresholding m 2 2 4 30) (0 * 2 + 0) in
  ((30 <= before)%Q -> after = 1%Q) /\
  ((before < 30)%Q -> (before < 4)%Q -> after = 0%Q) /\
  ((before < 30)%Q -> (4 <= before)%Q ->
   (after = 1%Q <->
    exists d, In d later_neighbors /\ strong_at m 2 2 30 0 0 d = true) /\
   (after = 0%Q <->
    forall d, In d later_neighbors -> strong_at m 2 2 30 0 0 d = false)).
Proof.
  apply (hysteresis_single_sweep [26%Q; 50%Q; 50%Q; 26%Q] 2 2 4 30 0 0).
  - vm_compute. reflexivity.
  - vm_compute. lia.
  - lia.
  - lia.
Defined.

Section hysteresis_own.
Variables (width height : Z) (low high : Q) (m0 : list Q).

Hypothesis mask_len : (Z.to_nat (width * height) <= length m0)%nat.

Let obs (m : list Q) (n : nat) : Q := default 0%Q (m !! n).
Let body (c : Z * Z) : list Q -> list Q :=
  hysteresis_pixel width height low high c.2 c.1.
Let Inv (m : list Q) : Prop := length m = length m0.
Let Post (c : Z * Z) (v : Q) : Prop :=
  let before := vget 0%Q m0 (c.1 * width + c.2) in
  (Float.leb high before = true -> v = 1%Q) /\
  (Float.leb high before = false -> Float.ltb before low = true -> v = 0%Q).

Lemma hysteresis_own_class y x :
  0 <= y < height -> 0 <= x < width ->
  Post (y, x) (vget 0%Q (applyHysteresisThresholding m0 width height low high)
                    (y * width + x)).
Proof.
  intros Hy Hx.
  assert (midway (idx_of width) obs Inv Post m0 (cells 0 height 0 width)
            (applyHysteresisThresholding m0 width height low high))
    as (_ & _ & Hpost).
  { unfold applyHysteresisThresholding.
    rewrite (nested_for_cells 0 height 0 width
               (fun y x => hysteresis_pixel width height low high x y)).
    apply (pass_post (idx_of width) obs body Inv Post m0).
    - intros [y' x'] m n Hn. unfold body, obs. simpl.
      destruct (hysteresis_pixel_cases width height low high x' y' m)
        as (v & _ & ->).
      unfold vset. by rewrite list_lookup_insert_ne.
    - by apply NoDup_idx.
    - done.
    - intros l1 [y' x'] l2 m Hl Hfresh (Hinv & Hun & _).
      assert ((y', x') ∈ cells 0 height 0 width) as [Hy' Hx']%elem_of_cells
        by (rewrite Hl, elem_of_app; right; by left).
      pose proof (idx_lt width height y' x' Hy' Hx') as Hlt.
      unfold Inv in Hinv.
      specialize (Hun _ Hfresh). unfold obs, idx_of in Hun. simpl in Hun.
      assert (vget 0%Q m (y' * width + x') = vget 0%Q m0 (y' * width + x'))
        as Hown by exact Hun.
      unfold body, hysteresis_pixel. simpl. rewrite Hown.
      unfold Post, obs, idx_of, Inv. simpl.
      destruct (Float.leb high _) eqn:Hs; [|destruct (Float.ltb _ low) eqn:Ha];
        rewrite length_vset; (split; [done|]);
        unfold vset; rewrite list_lookup_insert_eq by lia; simpl;
        split; intros; congruence. }
  apply (Hpost (y, x)). by apply elem_of_cells.
Qed.
End hysteresis_own.

(** The body of the sweep writes what the class of the pixel says. *)
Lemma hysteresis_pixel_by_class width height low high x y m :
  hysteresis_pixel width height low high x y m =
  vset m (y * width + x)
       match classify low high (vget 0%Q m (y * width + x)) with
       | Strong => 1%Q
       | Absent => 0%Q
       | Weak => if strong_neighbor m width height high x y then 1%Q else 0%Q
       end.
Proof.
  unfold hysteresis_pixel, classify.
  destruct (Float.leb _ _); [done|]. by destruct (Float.ltb _ _).
Qed.

(** C4.  For a fixed mask, raising the high threshold never turns a pixel
    classified strong at the lower threshold into a pixel classified
    absent at the higher one.  With the low threshold at most the lower
    high threshold (the filter has 4 and 30), a pixel whose value is at
    or above the lower high threshold takes the strong branch there and
    ends at 1; at the higher threshold it takes the strong branch again
    (and ends at 1) or the weak branch (and ends at 0 or 1 as its
    neighbours decide), never the absent branch. *)
Theorem strong_never_becomes_absent m width height low high1 high2 y x :
  (low <= high1)%Q -> (high1 <= high2)%Q ->
  (Z.to_nat (width * height) <= length m)%nat ->
  0 <= y < height -> 0 <= x < width ->
  let before := vget 0%Q m (y * width + x) in
  let after1 := vget 0%Q (applyHysteresisThresholding m width height low high1)
                     (y * width + x) in
  let after2 := vget 0%Q (applyHysteresisThresholding m width height low high2)
                     (y * width + x) in
  classify low high1 before = Strong ->
  after1 = 1%Q /\
  classify low high2 before <> Absent /\
  (classify low high2 before = Strong -> after2 = 1%Q) /\
  (classify low high2 before = Weak -> after2 = 0%Q \/ after2 = 1%Q).
Proof.
  intros Hlow Hhigh Hlen Hy Hx. cbv zeta. intros Hstrong.
  assert (Hs1 : Float.leb high1 (vget 0%Q m (y * width + x)) = true).
  { unfold classify in Hstrong. destruct (Float.leb high1 _); [done|].
    by destruct (Float.ltb _ low). }
  destruct (hysteresis_own_class width height low high1 m Hlen y x Hy Hx)
    as [Hone1 _].
  destruct (hysteresis_own_class width height low high2 m Hlen y x Hy Hx)
    as [Hone2 _].
  cbv zeta in Hone1, Hone2. cbn [fst snd] in Hone1, Hone2.
  split; [by apply Hone1|]. split; [|split].
  - unfold classify. destruct (Float.leb high2 _); [done|].
    assert (Float.ltb (vget 0%Q m (y * width + x)) low = false) as ->; [|done].
    apply ltb_ge. eapply Qle_trans; [exact Hlow|]. by apply leb_le.
  - intros Hs2. apply Hone2. unfold classify in Hs2.
    destruct (Float.leb high2 _); [done|]. by destruct (Float.ltb _ low).
  - intros _. by apply (hysteresis_binary width height low high2 m y x).
Qed.

Lemma strong_never_becomes_absent_witness :
  let before := vget 0%Q [50%Q] (0 * 1 + 0) in
  let after1 := vget 0%Q (applyHysteresisThresholding [50%Q] 1 1 4 30)
                     (0 * 1 + 0) in
  let after2 := vget 0%Q (applyHysteresisThresholding [50%Q] 1 1 4 60)
                     (0 * 1 + 0) in
  after1 = 1%Q /\
  classify 4 60 before <> Absent /\
  (classify 4 60 before = Strong -> after2 = 1%Q) /\
  (classify 4 60 before = Weak -> after2 = 0%Q \/ after2 = 1%Q).
Proof.
  apply (strong_never_becomes_absent [50%Q] 1 1 4 30 60 0 0).
  - vm_compute. discriminate.
  - vm_compute. discriminate.
  - vm_compute. lia.
  - lia.
  - lia.
  - vm_compute. reflexivity.
Defined.

(** X12.  For every pair of thresholds (also a high threshold of 1 or
    less, or one below the low threshold) a pixel is classified by its
    own value before the sweep: at or above [high_thresh] it ends at 1
    whatever its neighbours; below both thresholds it ends at 0 whatever
    its neighbours. *)
Theorem hysteresis_strong_and_absent m width height low high y x :
  (Z.to_nat (width * height) <= length m)%nat ->
  0 <= y < height -> 0 <= x < width ->
  let before := vget 0%Q m (y * width + x) in
  let after := vget 0%Q (applyHysteresisThresholding m width height low high)
                    (y * width + x) in
  ((high <= before)%Q -> after = 1%Q) /\
  ((before < high)%Q -> (before < low)%Q -> after = 0%Q).
Proof.
  intros Hlen Hy Hx.
  destruct (hysteresis_own_class width height low high m Hlen y x Hy Hx)
    as [Hstrong Habsent].
  simpl in *. split.
  - intros Hs. by apply Hstrong, leb_le.
  - intros Hs Ha. apply Habsent; [by apply leb_gt | by apply ltb_lt].
Qed.

Lemma hysteresis_strong_and_absent_witness :
  let m := [(3 # 4)%Q; (1 # 4)%Q] in
  let before := vget 0%Q m (0 * 2 + 1) in
  let after := vget 0%Q (applyHysteresisThresholding m 2 1 (1 # 3) (1 # 2))
                    (0 * 2 + 1) in
  (((1 # 2) <= before)%Q -> after = 1%Q) /\
  ((before < (1 # 2))%Q -> (before < (1 # 3))%Q -> after = 0%Q).
Proof.
  apply (hysteresis_strong_and_absent [(3 # 4)%Q; (1 # 4)%Q] 2 1
           (1 # 3) (1 # 2) 0 1).
  - vm_compute. lia.
  - lia.
  - lia.
Defined.

(** ** The mask left by the previous call *)

Lemma morph_pass_length op init t width height radius m :
  length (morph_pass op init t width height radius m) = length m.
Proof.
  unfold morph_pass.
  apply (for_invariant (fun a => length a = length m)); [done|].
  intros y a _ Ha. apply (for_invariant (fun a => length a = length m)); [done|].
  intros x a' _ Ha'. by rewrite length_vset.
Qed.

Lemma opening_length m width height radius :
  length (applyMorphologicalOpening m width height radius) = length m.
Proof.
  unfold applyMorphologicalOpening, dilate, erode.
  by rewrite !morph_pass_length.
Qed.

Lemma disk_offsets_range radius d :
  In d (disk_offsets radius) ->
  - radius <= d.1 <= radius /\ - radius <= d.2 <= radius.
Proof.
  unfold disk_offsets. intros [Hd _]%filter_In.
  apply list_elem_of_In in Hd. destruct d as [dy dx].
  apply elem_of_cells in Hd. simpl. lia.
Qed.

Lemma min_same_or_low a a' c c' :
  same_or_low a a' -> same_or_low c c' ->
  same_or_low (Float.min a c) (Float.min a' c').
Proof.
  intros [-> | [Ha Ha']] [-> | [Hc Hc']]; [by left|right..].
  - split; (eapply Qle_lt_trans; [apply min_le_r | done]).
  - split; (eapply Qle_lt_trans; [apply min_le_l | done]).
  - split; (eapply Qle_lt_trans; [apply min_le_l | done]).
Qed.

Lemma max_same_or_low a a' c c' :
  same_or_low a a' -> same_or_low c c' ->
  same_or_low (Float.max a c) (Float.max a' c').
Proof.
  assert (Hsmall : forall p q, (p < 4)%Q -> (q < 4)%Q -> (Float.max p q < 4)%Q).
  { intros p q Hp Hq. unfold Float.max. by destruct (Float.ltb p q). }
  intros [-> | [Ha Ha']] [-> | [Hc Hc']]; [by left| | |right; by split; apply Hsmall].
  - destruct (Qlt_le_dec a' 4) as [Hlow | Hhigh].
    + right. by split; apply Hsmall.
    + left. unfold Float.max.
      assert (Float.ltb a' c = false) as ->
        by (apply ltb_ge; apply Qlt_le_weak; by eapply Qlt_le_trans).
      assert (Float.ltb a' c' = false) as ->
        by (apply ltb_ge; apply Qlt_le_weak; by eapply Qlt_le_trans).
      done.
  - destruct (Qlt_le_dec c' 4) as [Hlow | Hhigh].
    + right. by split; apply Hsmall.
    + left. unfold Float.max.
      assert (Float.ltb a c' = true) as ->
        by (apply ltb_lt; by eapply Qlt_le_trans).
      assert (Float.ltb a' c' = true) as ->
        by (apply ltb_lt; by eapply Qlt_le_trans).
      done.
Qed.

Lemma fold_same_or_low op l l' a a' :
  (forall p p' q q', same_or_low p p' -> same_or_low q q' ->
                     same_or_low (op p q) (op p' q')) ->
  Forall2 same_or_low l l' -> same_or_low a a' ->
  same_or_low (fold_left op l a) (fold_left op l' a').
Proof.
  intros Hop Hl. revert a a'.
  induction Hl as [|q q' l l' Hq Hl IH]; intros a a' Ha; simpl; [done|].
  apply IH. by apply Hop.
Qed.

Lemma disk_values_agree width height radius m m' y x :
  agree_above_low width height m m' ->
  radius <= y < height - radius -> radius <= x < width - radius ->
  Forall2 same_or_low (disk_values m width radius x y)
                      (disk_values m' width radius x y).
Proof.
  intros Hm Hy Hx. unfold disk_values.
  assert (Hin : forall d, In d (disk_offsets radius) ->
            - radius <= d.1 <= radius /\ - radius <= d.2 <= radius)
    by apply disk_offsets_range.
  induction (disk_offsets radius) as [|d l IH]; simpl; constructor.
  - destruct (Hin d) as [Hdy Hdx]; [by left|]. apply Hm; lia.
  - apply IH. intros d' Hd'. apply Hin. by right.
Qed.

Lemma erode_agree width height radius m m' :
  0 <= radius ->
  (Z.to_nat (width * height) <= length m)%nat ->
  (Z.to_nat (width * height) <= length m')%nat ->
  agree_above_low width height m m' ->
  agree_above_low width height (erode m width height radius)
                  (erode m' width height radius).
Proof.
  intros Hr Hlen Hlen' Hm y x Hy Hx.
  destruct (interior_dec radius width height y x) as [[Hiy Hix] | Hb].
  - rewrite !erode_interior by done.
    apply fold_same_or_low;
      [apply min_same_or_low | by apply (disk_values_agree width height) | by left].
  - rewrite !erode_border by done. by apply Hm.
Qed.

Lemma dilate_agree width height radius m m' :
  0 <= radius ->
  (Z.to_nat (width * height) <= length m)%nat ->
  (Z.to_nat (width * height) <= length m')%nat ->
  agree_above_low width height m m' ->
  agree_above_low width height (dilate m width height radius)
                  (dilate m' width height radius).
Proof.
  intros Hr Hlen Hlen' Hm y x Hy Hx.
  destruct (interior_dec radius width height y x) as [[Hiy Hix] | Hb].
  - rewrite !dilate_interior by done.
    apply fold_same_or_low;
      [apply max_same_or_low | by apply (disk_values_agree width height) | by left].
  - rewrite !dilate_border by done. by apply Hm.
Qed.

Lemma same_or_low_strong a c :
  same_or_low a c -> Float.leb 30 a = Float.leb 30 c.
Proof.
  intros [-> | [Ha Hc]]; [done|].
  assert (Float.leb 30 a = false) as ->
    by (apply leb_gt; eapply Qlt_trans; [exact Ha | done]).
  symmetry. apply leb_gt. eapply Qlt_trans; [exact Hc | done].
Qed.

Lemma same_or_low_absent a c :
  same_or_low a c -> Float.ltb a 4 = Float.ltb c 4.
Proof.
  intros [-> | [Ha Hc]]; [done|].
  apply ltb_lt in Ha, Hc. by rewrite Ha, Hc.
Qed.

Lemma strong_at_agree width height m m' x y d :
  agree_above_low width height m m' ->
  strong_at m width height 30 x y d = strong_at m' width height 30 x y d.
Proof.
  intros Hm. unfold strong_at.
  destruct ((0 <=? y + d.1) && (y + d.1 <? height) && (0 <=? x + d.2)
            && (x + d.2 <? width)) eqn:Hin; simpl; [|done].
  rewrite !andb_true_iff in Hin. destruct Hin as [[[H1 H2] H3] H4].
  apply Z.leb_le in H1, H3. apply Z.ltb_lt in H2, H4.
  apply same_or_low_strong, Hm; lia.
Qed.

Lemma hysteresis_value_agree width height m m' y x :
  agree_above_low width height m m' ->
  0 <= y < height -> 0 <= x < width ->
  hysteresis_value m width height 4 30 x y =
  hysteresis_value m' width height 4 30 x y.
Proof.
  intros Hm Hy Hx. unfold hysteresis_value.
  rewrite (same_or_low_strong _ _ (Hm y x Hy Hx)).
  rewrite (same_or_low_absent _ _ (Hm y x Hy Hx)).
  unfold later_neighbors. cbn [existsb].
  by rewrite !(strong_at_agree width height m m').
Qed.

(** The two stages after the detector do not see differences below the
    low threshold. *)
Lemma stabilized_agree width height radius m m' y x :
  0 <= radius ->
  (Z.to_nat (width * height) <= length m)%nat ->
  (Z.to_nat (width * height) <= length m')%nat ->
  agree_above_low width height m m' ->
  0 <= y < height -> 0 <= x < width ->
  vget 0%Q (applyHysteresisThresholding
              (applyMorphologicalOpening m width height radius)
              width height 4 30) (y * width + x) =
  vget 0%Q (applyHysteresisThresholding
              (applyMorphologicalOpening m' width height radius)
              width height 4 30) (y * width + x).
Proof.
  intros Hr Hlen Hlen' Hm Hy Hx.
  assert (H130 : (1 < 30)%Q) by done.
  rewrite (hysteresis_cell width height 4 30
             (applyMorphologicalOpening m width height radius) H130)
    by (rewrite ?opening_length; done).
  rewrite (hysteresis_cell width height 4 30
             (applyMorphologicalOpening m' width height radius) H130)
    by (rewrite ?opening_length; done).
  apply hysteresis_value_agree; [|done..].
  unfold applyMorphologicalOpening.
  apply dilate_agree; [done | unfold erode; by rewrite morph_pass_length..|].
  by apply erode_agree.
Qed.

Lemma detect_states_indep buffer width height stride gl gl' :
  pixel_states gl = pixel_states gl' ->
  pixel_states (detect buffer width height stride gl) =
  pixel_states (detect buffer width height stride gl').
Proof.
  intros Hgl. unfold detect.
  apply (for_invariant2 (fun a a' => pixel_states a = pixel_states a')); [done|].
  intros y a a' _ Ha.
  apply (for_invariant2 (fun a a' => pixel_states a = pixel_states a')); [done|].
  intros x c c' _ Hc. rewrite !detect_pixel_eq. simpl. by rewrite Hc.
Qed.

Lemma detect_lengths buffer width height stride gl :
  length (pixel_states (detect buffer width height stride gl)) =
    length (pixel_states gl) /\
  length (motion_mask (detect buffer width height stride gl)) =
    length (motion_mask gl).
Proof.
  unfold detect.
  apply (for_invariant
           (fun a => length (pixel_states a) = length (pixel_states gl) /\
                     length (motion_mask a) = length (motion_mask gl)));
    [done|].
  intros y a _ Ha.
  apply (for_invariant
           (fun a => length (pixel_states a) = length (pixel_states gl) /\
                     length (motion_mask a) = length (motion_mask gl)));
    [done|].
  intros x c _ [Hc1 Hc2]. rewrite detect_pixel_eq. simpl.
  by rewrite !length_vset.
Qed.

Lemma composite_ext mask mask' width height stride buffer :
  (forall y x, 0 <= y < height -> 0 <= x < width ->
     vget 0%Q mask (y * width + x) = vget 0%Q mask' (y * width + x)) ->
  composite mask width height stride buffer =
  composite mask' width height stride buffer.
Proof.
  intros Hmask. unfold composite.
  apply (for_invariant2 eq); [done|].
  intros y c c' Hy <-. apply (for_invariant2 eq); [done|].
  intros x e e' Hx <-. unfold composite_pixel. by rewrite (Hmask y x).
Qed.

Lemma vget_eq_list (m m' : list Q) width height :
  0 <= width ->
  length m = Z.to_nat (width * height) ->
  length m' = Z.to_nat (width * height) ->
  (forall y x, 0 <= y < height -> 0 <= x < width ->
     vget 0%Q m (y * width + x) = vget 0%Q m' (y * width + x)) ->
  m = m'.
Proof.
  intros Hw Hlen Hlen' Hcells. apply list_eq. intros i.
  destruct (decide (i < Z.to_nat (width * height))%nat) as [Hi | Hi].
  - destruct (idx_cell width height i Hw Hi) as (y & x & Hy & Hx & ->).
    specialize (Hcells y x Hy Hx). unfold vget in Hcells.
    destruct (lookup_lt_is_Some_2 m (Z.to_nat (y * width + x))) as [v Hv];
      [lia|].
    destruct (lookup_lt_is_Some_2 m' (Z.to_nat (y * width + x))) as [v' Hv'];
      [lia|].
    rewrite Hv, Hv' in *. simpl in Hcells. by rewrite Hcells.
  - rewrite !(proj2 (lookup_ge_None _ _)) by lia. done.
Qed.

(** X13.  A Running-state call does not depend on the mask the previous
    call left behind, although the detector does not clear it: when
    every entry of that mask is below the low threshold 4 (as the
    entries 0 and 1 of a final mask are), the call returns the same
    states, the same mask and the same buffer as a call that starts from
    an unallocated mask. *)
Theorem previous_mask_is_irrelevant gl buffer width height stride pixel_stride :
  0 <= width ->
  pixel_states gl <> [] ->
  (Z.to_nat (width * height) <= length (pixel_states gl))%nat ->
  length (motion_mask gl) = Z.to_nat (width * height) ->
  Forall (fun v => (v < 4)%Q) (motion_mask gl) ->
  filter_impl gl buffer width height stride pixel_stride =
  filter_impl {| pixel_states := pixel_states gl; motion_mask := [] |}
              buffer width height stride pixel_stride.
Proof.
  intros Hw Hne Hps Hmm Hlow.
  set (gl0 := {| pixel_states := pixel_states gl; motion_mask := [] |}).
  rewrite (filter_impl_running gl) by done.
  rewrite (filter_impl_running gl0) by done.
  cbv zeta.
  set (radius := radius_of width height).
  assert (Hr : 0 <= radius) by (pose proof (radius_of_pos width height); lia).
  set (d := after_detector gl buffer width height stride).
  set (d0 := after_detector gl0 buffer width height stride).
  assert (Hstates : pixel_states d = pixel_states d0)
    by (by apply detect_states_indep).
  assert (Hlen : length (motion_mask d) = Z.to_nat (width * height)).
  { unfold d, after_detector.
    rewrite (proj2 (detect_lengths _ _ _ _ _)). simpl.
    revert Hmm. unfold alloc_mask.
    destruct (motion_mask gl); [intros _; apply length_replicate | done]. }
  assert (Hlen0 : length (motion_mask d0) = Z.to_nat (width * height)).
  { unfold d0, after_detector.
    rewrite (proj2 (detect_lengths _ _ _ _ _)). simpl.
    apply length_replicate. }
  assert (Hagree : agree_above_low width height (motion_mask d) (motion_mask d0)).
  { intros y x Hy Hx. unfold d, d0.
    rewrite (after_detector_mask gl) by (done || by right; lia).
    rewrite (after_detector_mask gl0) by (done || by left).
    simpl. unfold next_mask. destruct (Float.ltb _ 25); [|by left].
    right. split; [|done].
    apply Forall_vget; [done | done]. }
  assert (Hmask :
    applyHysteresisThresholding
      (applyMorphologicalOpening (motion_mask d) width height radius)
      width height 4 30 =
    applyHysteresisThresholding
      (applyMorphologicalOpening (motion_mask d0) width height radius)
      width height 4 30).
  { apply (vget_eq_list _ _ width height Hw).
    - by rewrite hysteresis_length, opening_length.
    - by rewrite hysteresis_length, opening_length.
    - intros y x Hy Hx. apply stabilized_agree; (done || lia). }
  by rewrite Hstates, Hmask.
Qed.

Lemma previous_mask_is_irrelevant_witness :
  filter_impl (run 1 1 3 [black_1x1; white_1x1] fresh) black_1x1 1 1 3 3 =
  filter_impl {| pixel_states :=
                   pixel_states (run 1 1 3 [black_1x1; white_1x1] fresh);
                 motion_mask := [] |} black_1x1 1 1 3 3.
Proof.
  apply (previous_mask_is_irrelevant
           (run 1 1 3 [black_1x1; white_1x1] fresh) black_1x1 1 1 3 3).
  - lia.
  - vm_compute. discriminate.
  - vm_compute. lia.
  - reflexivity.
  - vm_compute. repeat (constructor; [reflexivity|]). constructor.
Defined.

(** ** filter_impl over several calls *)

Lemma composite_zeros n width height stride buffer :
  composite (replicate n 0%Q) width height stride buffer = buffer.
Proof.
  unfold composite. apply (for_invariant (fun a => a = buffer)); [done|].
  intros y a _ ->. apply (for_invariant (fun a => a = buffer)); [done|].
  intros x a _ ->. unfold composite_pixel. by rewrite vget_zeros.
Qed.

Lemma distance_self pixel :
  Float.ltb (colorDistance pixel pixel) 25%Q = true.
Proof.
  apply distance_below_25.
  replace (sqdist pixel pixel) with 0 by (unfold sqdist; lia). done.
Qed.

(** The detector on the frame the states were seeded from changes
    nothing. *)
Lemma detect_static frame width height stride mask :
  let gl := {| pixel_states := seed frame width height stride;
               motion_mask := mask |} in
  detect frame width height stride gl = gl.
Proof.
  intros gl. unfold detect. apply (for_invariant (fun a => a = gl)); [done|].
  intros y a Hy ->. apply (for_invariant (fun a => a = gl)); [done|].
  intros x a Hx ->. rewrite detect_pixel_eq. cbv zeta.
  unfold gl at 1 2 3 4 5. cbn [pixel_states motion_mask].
  rewrite (seed_cell frame width height stride y x Hy Hx).
  unfold next_state, next_mask.
  rewrite bg_rgb_rgb_state, distance_self.
  change {| bg_r := bg_r (rgb_state (pixel_at frame stride y x) 0);
            bg_g := bg_g (rgb_state (pixel_at frame stride y x) 0);
            bg_b := bg_b (rgb_state (pixel_at frame stride y x) 0);
            time := 0 |}
    with (rgb_state (pixel_at frame stride y x) 0).
  rewrite <- (seed_cell frame width height stride y x Hy Hx).
  by rewrite !vset_vget.
Qed.

Lemma static_step frame width height stride pixel_stride gl :
  pixel_states gl = seed frame width height stride ->
  Forall (fun v => v = 0%Q) (motion_mask gl) ->
  let out := filter_impl gl frame width height stride pixel_stride in
  out.2 = frame /\
  pixel_states out.1 = seed frame width height stride /\
  Forall (fun v => v = 0%Q) (motion_mask out.1).
Proof.
  intros Hps Hmm.
  destruct (seed frame width height stride) as [|st ps] eqn:Hseed.
  - unfold filter_impl. rewrite Hps. simpl. by rewrite Hseed.
  - rewrite filter_impl_running by (by rewrite Hps). cbv zeta.
    cbn [fst snd pixel_states motion_mask].
    unfold after_detector. rewrite Hps, <- Hseed.
    rewrite (detect_static frame width height stride). cbn [pixel_states motion_mask].
    assert (exists n, alloc_mask width height (motion_mask gl) = replicate n 0%Q)
      as [n ->].
    { unfold alloc_mask. destruct (motion_mask gl) as [|q l] eqn:Hm; [by eexists|].
      exists (length (q :: l)). symmetry. apply replicate_as_Forall.
      split; [done|]. eapply Forall_impl; [exact Hmm|]. by intros v ->. }
    rewrite opening_zeros by (pose proof (radius_of_pos width height); lia).
    rewrite hysteresis_zeros, composite_zeros.
    split; [done|]. split; [done|]. by apply Forall_replicate.
Qed.

(** X14.  A static scene is never highlighted: however often one and the
    same frame is presented to a fresh filter, every call returns the
    buffer unmodified, the states stay as seeded (estimate = pixel
    colour, counter 0) and the mask holds nothing but zeros. *)
Theorem static_scene width height stride frame n :
  let gl := run width height stride (replicate (S n) frame) fresh in
  pixel_states gl = seed frame width height stride /\
  Forall (fun v => v = 0%Q) (motion_mask gl) /\
  (filter_impl gl frame width height stride 3).2 = frame.
Proof.
  cbv zeta.
  set (frames := replicate (S n) frame).
  assert (Hrun : pixel_states (run width height stride frames fresh)
                 = seed frame width height stride /\
                 Forall (fun v => v = 0%Q)
                   (motion_mask (run width height stride frames fresh))).
  { unfold frames. clear frames. induction n as [|n [IHps IHmm]].
    - unfold run. simpl. split; [done | constructor].
    - rewrite replicate_S_end, run_app.
      by destruct (static_step frame width height stride 3 _ IHps IHmm)
        as (_ & ? & ?). }
  destruct Hrun as [Hps Hmm]. split; [done|]. split; [done|].
  by destruct (static_step frame width height stride 3 _ Hps Hmm) as (? & _).
Qed.

(** X15.  After the first frame of a non-empty geometry the filter is in
    the Running state for good: whatever frames follow, [pixel_states]
    is not empty and holds exactly [width * height] states. *)
Theorem running_after_first_frame width height stride frame frames :
  0 < width -> 0 < height ->
  let gl := run width height stride (frame :: frames) fresh in
  pixel_states gl <> [] /\
  length (pixel_states gl) = Z.to_nat (width * height).
Proof.
  intros Hw Hh. cbv zeta.
  assert (Harea : 0 < width * height) by nia.
  change (run width height stride (frame :: frames) fresh)
    with (run width height stride frames
            (filter_impl fresh frame width height stride 3).1).
  set (gl1 := (filter_impl fresh frame width height stride 3).1).
  assert (Hlen1 : length (pixel_states gl1) = Z.to_nat (width * height))
    by apply seed_length.
  assert (Hne1 : pixel_states gl1 <> []).
  { intros Hnil. rewrite Hnil in Hlen1. simpl in Hlen1. lia. }
  pose proof (run_length width height stride frames gl1 Hne1) as Hlen.
  split; [|lia].
  intros Hnil. rewrite Hnil in Hlen. cbn [length] in Hlen. lia.
Qed.

Lemma running_after_first_frame_witness :
  let gl := run 2 1 8 (frame_a :: [frame_b; frame_a]) fresh in
  pixel_states gl <> [] /\ length (pixel_states gl) = Z.to_nat (2 * 1).
Proof.
  apply (running_after_first_frame 2 1 8 frame_a [frame_b; frame_a]); lia.
Defined.

(** X16.  Frames without area do not initialise the filter: when the
    width or the height is 0 (and neither is negative) every call takes
    the first-frame branch again, returns the buffer as it is and leaves
    both vectors empty. *)
Theorem zero_area_frames_do_nothing width height stride frames buffer :
  0 <= width -> 0 <= height -> width * height = 0 ->
  run width height stride frames fresh = fresh /\
  filter_impl fresh buffer width height stride 3 = (fresh, buffer).
Proof.
  intros Hw Hh Harea.
  assert (Hcall : forall b, filter_impl fresh b width height stride 3 = (fresh, b)).
  { intros b. unfold filter_impl. simpl.
    pose proof (seed_length b width height stride) as Hlen.
    replace (Z.to_nat (width * height)) with 0%nat in Hlen by lia.
    apply nil_length_inv in Hlen. by rewrite Hlen. }
  split; [|apply Hcall].
  induction frames as [|b frames IH]; [done|].
  change (run width height stride (b :: frames) fresh)
    with (run width height stride frames
            (filter_impl fresh b width height stride 3).1).
  by rewrite Hcall.
Qed.

Lemma zero_area_frames_do_nothing_witness :
  run 0 5 0 [[]; []] fresh = fresh /\
  filter_impl fresh [] 0 5 0 3 = (fresh, []).
Proof. apply (zero_area_frames_do_nothing 0 5 0 [[]; []] []); lia. Defined.

Lemma composite_keeps_length mask width height stride buffer :
  length (composite mask width height stride buffer) = length buffer.
Proof.
  unfold composite.
  apply (for_invariant (fun a => length a = length buffer)); [done|].
  intros y a _ Ha.
  apply (for_invariant (fun a => length a = length buffer)); [done|].
  intros x c _ Hc. unfold composite_pixel.
  destruct (Float.ltb _ _); [by rewrite length_vset | done].
Qed.

(** X17.  A Running-state call never resizes anything: [pixel_states] and
    the frame buffer keep their lengths, and so does [motion_mask]
    unless it was empty, in which case it is allocated with
    [width * height] entries. *)
Theorem running_call_keeps_sizes gl buffer width height stride pixel_stride :
  pixel_states gl <> [] ->
  let out := filter_impl gl buffer width height stride pixel_stride in
  length (pixel_states out.1) = length (pixel_states gl) /\
  length out.2 = length buffer /\
  (motion_mask gl <> [] ->
   length (motion_mask out.1) = length (motion_mask gl)) /\
  (motion_mask gl = [] ->
   length (motion_mask out.1) = Z.to_nat (width * height)).
Proof.
  intros Hne. cbv zeta. rewrite filter_impl_running by done.
  cbv zeta. cbn [fst snd pixel_states motion_mask].
  rewrite composite_keeps_length, hysteresis_length, opening_length.
  unfold after_detector.
  destruct (detect_lengths buffer width height stride
              {| pixel_states := pixel_states gl;
                 motion_mask := alloc_mask width height (motion_mask gl) |})
    as [Hps Hmm].
  cbn [pixel_states motion_mask] in Hps, Hmm. rewrite Hps, Hmm.
  split; [done|]. split; [done|]. unfold alloc_mask. split.
  - intros Hmask. by destruct (motion_mask gl).
  - intros ->. apply length_replicate.
Qed.

Lemma running_call_keeps_sizes_witness :
  let gl := run 2 1 8 [frame_a] fresh in
  let out := filter_impl gl frame_b 2 1 8 3 in
  length (pixel_states out.1) = length (pixel_states gl) /\
  length out.2 = length frame_b /\
  (motion_mask gl <> [] ->
   length (motion_mask out.1) = length (motion_mask gl)) /\
  (motion_mask gl = [] ->
   length (motion_mask out.1) = Z.to_nat (2 * 1)).
Proof.
  apply (running_call_keeps_sizes (run 2 1 8 [frame_a] fresh) frame_b 2 1 8 3).
  vm_compute. discriminate.
Defined.

(** X18.  The background model cannot adapt in fewer than 101 frames: a
    pixel whose counter is [t] keeps its stored estimate through any [k]
    further frames, whatever they show, as long as [t + k <= 100]; its
    counter stays between 0 and [t + k]. *)
Theorem no_adaptation_within_100_frames width height stride frames gl y x :
  (Z.to_nat (width * height) <= length (pixel_states gl))%nat ->
  0 <= y < height -> 0 <= x < width ->
  let idx := y * width + x in
  let state0 := vget zero_state (pixel_states gl) idx in
  0 <= time state0 ->
  time state0 + Z.of_nat (length frames) <= 100 ->
  let state :=
    vget zero_state (pixel_states (run width height stride frames gl)) idx in
  bg_r state = bg_r state0 /\ bg_g state = bg_g state0 /\
  bg_b state = bg_b state0 /\
  0 <= time state <= time state0 + Z.of_nat (length frames).
Proof.
  intros Hlen Hy Hx. cbv zeta. revert gl Hlen.
  induction frames as [|buffer frames IH]; intros gl Hlen Ht0 Hk.
  - simpl in *. repeat split; try done; lia.
  - change (run width height stride (buffer :: frames) gl)
      with (run width height stride frames
              (filter_impl gl buffer width height stride 3).1).
    assert (Hne : pixel_states gl <> []).
    { pose proof (idx_lt width height y x Hy Hx).
      destruct (pixel_states gl); [simpl in Hlen; lia | done]. }
    pose proof (filter_impl_running_length gl buffer width height stride 3 Hne)
      as Hlen1.
    pose proof (filter_impl_running_cell gl buffer width height stride 3 y x
                  Hlen Hy Hx) as Hcell.
    set (gl1 := (filter_impl gl buffer width height stride 3).1) in *.
    set (state0 := vget zero_state (pixel_states gl) (y * width + x)) in *.
    set (state1 := vget zero_state (pixel_states gl1) (y * width + x)) in *.
    cbn [length] in Hk. rewrite Nat2Z.inj_succ in Hk.
    assert (bg_r state1 = bg_r state0 /\ bg_g state1 = bg_g state0 /\
            bg_b state1 = bg_b state0 /\
            0 <= time state1 <= time state0 + 1) as (Hr & Hg & Hb & Ht1).
    { rewrite Hcell. unfold next_state.
      destruct (Float.ltb _ _); [simpl; repeat split; try done; lia|].
      destruct (100 <? time state0 + 1) eqn:Hlt; [apply Z.ltb_lt in Hlt; lia|].
      simpl. repeat split; try done; lia. }
    destruct (IH gl1) as (Hr' & Hg' & Hb' & Ht'); [lia | fold state1; lia
                                                  | fold state1; lia |].
    fold state1 in Hr', Hg', Hb', Ht'.
    rewrite Hr', Hg', Hb'. cbn [length]. rewrite Nat2Z.inj_succ.
    repeat split; try done; lia.
Qed.

Lemma no_adaptation_within_100_frames_witness :
  let gl := run 1 1 3 [black_1x1] fresh in
  let frames := replicate 100 white_1x1 in
  let state0 := vget zero_state (pixel_states gl) (0 * 1 + 0) in
  let state :=
    vget zero_state (pixel_states (run 1 1 3 frames gl)) (0 * 1 + 0) in
  bg_r state = bg_r state0 /\ bg_g state = bg_g state0 /\
  bg_b state = bg_b state0 /\
  0 <= time state <= time state0 + Z.of_nat (length frames).
Proof.
  apply (no_adaptation_within_100_frames 1 1 3 (replicate 100 white_1x1)
           (run 1 1 3 [black_1x1] fresh) 0 0).
  - vm_compute. lia.
  - lia.
  - lia.
  - vm_compute. discriminate.
  - vm_compute. discriminate.
Defined.

(** X19.  The detector writes nothing but distances of 25 or more: after
    its step in a Running-state call, the mask entry of a pixel is the
    entry the call found there, or a value from 25 (included) to 442
    (excluded). *)
Theorem detector_writes_distances gl buffer width height stride y x :
  (Z.to_nat (width * height) <= length (pixel_states gl))%nat ->
  motion_mask gl = [] \/
  (Z.to_nat (width * height) <= length (motion_mask gl))%nat ->
  0 <= y < height -> 0 <= x < width ->
  let old := vget 0%Q (motion_mask gl) (y * width + x) in
  let new := vget 0%Q (motion_mask (after_detector gl buffer width height stride))
                  (y * width + x) in
  new = old \/ ((25 <= new)%Q /\ (new < 442)%Q).
Proof.
  intros Hps Hmm Hy Hx. cbv zeta.
  rewrite after_detector_mask by done. unfold next_mask.
  destruct (Float.ltb _ 25) eqn:Hlt; [by left|]. right.
  apply ltb_ge in Hlt. split; [done|].
  set (p1 := pixel_at buffer stride y x).
  set (p2 := bg_rgb _).
  change (colorDistance p1 p2) with (Float.sqrt (sqdist p1 p2)).
  apply ltb_lt. change 442%Q with (inject_Z 442).
  pose proof (sqdist_range p1 p2).
  apply sqrt_below_iff; [done | lia | lia].
Qed.

Lemma detector_writes_distances_witness :
  let gl := run 2 1 8 [frame_a] fresh in
  let old := vget 0%Q (motion_mask gl) (0 * 2 + 0) in
  let new := vget 0%Q (motion_mask (after_detector gl frame_b 2 1 8))
                  (0 * 2 + 0) in
  new = old \/ ((25 <= new)%Q /\ (new < 442)%Q).
Proof.
  apply (detector_writes_distances (run 2 1 8 [frame_a] fresh) frame_b 2 1 8 0 0).
  - vm_compute. lia.
  - left. reflexivity.
  - lia.
  - lia.
Defined.

(** ** What the opening keeps and what it removes *)

Lemma disk_offsets_centre radius : 0 <= radius -> In (0, 0) (disk_offsets radius).
Proof.
  intros Hr. unfold disk_offsets. apply filter_In. split.
  - apply list_elem_of_In, elem_of_cells. lia.
  - apply Z.leb_le. simpl. nia.
Qed.

Lemma disk_values_shift m width radius x y d :
  disk_values m width radius (x + d.2) (y + d.1) =
  map (fun d' => vget 0%Q m ((y + d.1 + d'.1) * width + (x + d.2 + d'.2)))
      (disk_offsets radius).
Proof. done. Qed.

(** X20.  The opening keeps the inside of a uniform region: when the
    mask has one value [c], between 0 and 255, at every pixel within
    [2 * radius] rows and columns of a pixel that is itself at least
    [2 * radius] away from every edge, the opened mask has the value [c]
    at that pixel. *)
Theorem opening_keeps_uniform_region m width height radius y x c :
  0 <= radius -> (Z.to_nat (width * height) <= length m)%nat ->
  2 * radius <= y < height - 2 * radius ->
  2 * radius <= x < width - 2 * radius ->
  (0 <= c)%Q -> (c <= 255)%Q ->
  (forall dy dx, - (2 * radius) <= dy <= 2 * radius ->
                 - (2 * radius) <= dx <= 2 * radius ->
     vget 0%Q m ((y + dy) * width + (x + dx)) = c) ->
  (vget 0%Q (applyMorphologicalOpening m width height radius) (y * width + x)
   == c)%Q.
Proof.
  intros Hr Hlen Hy Hx Hc0 Hc255 Hunif.
  set (offs := disk_offsets radius).
  set (e0 := fold_left Float.min (map (fun _ : Z * Z => c) offs) 255%Q).
  assert (Hcentre : In (0, 0) offs) by (by apply disk_offsets_centre).
  assert (Heroded : forall d, In d offs ->
            vget 0%Q (erode m width height radius)
                 ((y + d.1) * width + (x + d.2)) = e0).
  { intros d Hd. destruct (disk_offsets_range radius d Hd) as [Hdy Hdx].
    rewrite erode_interior by (done || lia).
    rewrite disk_values_shift. unfold e0. f_equal.
    apply map_ext_in. intros d' Hd'.
    destruct (disk_offsets_range radius d' Hd') as [Hdy' Hdx'].
    rewrite <- !Z.add_assoc. apply Hunif; lia. }
  assert (He0 : (e0 == c)%Q).
  { assert (In c (map (fun _ : Z * Z => c) offs)) as Hin
      by (apply in_map_iff; by exists (0, 0)).
    pose proof (fold_min_le_elem _ 255%Q c Hin) as Hle. fold e0 in Hle.
    destruct (fold_min_attained (map (fun _ : Z * Z => c) offs) 255%Q)
      as [H255 | Hatt]; fold e0 in H255 || fold e0 in Hatt.
    - apply Qle_antisym; [done|]. by rewrite H255.
    - apply in_map_iff in Hatt as (? & <- & _). reflexivity. }
  unfold applyMorphologicalOpening.
  rewrite dilate_interior;
    [| done | by unfold erode; rewrite morph_pass_length | lia | lia].
  replace (disk_values (erode m width height radius) width radius x y)
    with (map (fun _ : Z * Z => e0) offs)
    by (symmetry; apply map_ext_in; intros d Hd; by apply Heroded).
  assert (In e0 (map (fun _ : Z * Z => e0) offs)) as Hin
    by (apply in_map_iff; by exists (0, 0)).
  pose proof (fold_max_ge_elem _ 0%Q e0 Hin) as Hge.
  destruct (fold_max_attained (map (fun _ : Z * Z => e0) offs) 0%Q)
    as [H0 | Hatt].
  - rewrite H0 in *. apply Qle_antisym; [done|]. by rewrite <- He0.
  - apply in_map_iff in Hatt as (? & <- & _). exact He0.
Qed.

Lemma opening_keeps_uniform_region_witness :
  (vget 0%Q (applyMorphologicalOpening (replicate 169 40%Q) 13 13 3)
        (6 * 13 + 6) == 40)%Q.
Proof.
  apply (opening_keeps_uniform_region (replicate 169 40%Q) 13 13 3 6 6 40).
  - lia.
  - vm_compute. lia.
  - lia.
  - lia.
  - vm_compute. discriminate.
  - vm_compute. discriminate.
  - intros dy dx Hdy Hdx. apply vget_replicate. lia.
Defined.

(** X21.  The opening removes what the disk does not fit into: at a pixel
    at least [2 * radius] away from every edge, when every disk centred
    within the disk of the pixel contains a value of at most [t] (with
    [t] not negative), the opened mask is at most [t] at the pixel. *)
Theorem opening_removes_small_blobs m width height radius y x t :
  0 <= radius -> (Z.to_nat (width * height) <= length m)%nat ->
  2 * radius <= y < height - 2 * radius ->
  2 * radius <= x < width - 2 * radius ->
  (0 <= t)%Q ->
  (forall d, In d (disk_offsets radius) ->
     exists d', In d' (disk_offsets radius) /\
       (vget 0%Q m ((y + d.1 + d'.1) * width + (x + d.2 + d'.2)) <= t)%Q) ->
  (vget 0%Q (applyMorphologicalOpening m width height radius) (y * width + x)
   <= t)%Q.
Proof.
  intros Hr Hlen Hy Hx Ht Hsparse.
  unfold applyMorphologicalOpening.
  rewrite dilate_interior;
    [| done | by unfold erode; rewrite morph_pass_length | lia | lia].
  destruct (fold_max_attained
              (disk_values (erode m width height radius) width radius x y) 0%Q)
    as [-> | Hatt]; [done|].
  unfold disk_values at 2 in Hatt.
  apply in_map_iff in Hatt as (d & <- & Hd).
  destruct (disk_offsets_range radius d Hd) as [Hdy Hdx].
  destruct (Hsparse d Hd) as (d' & Hd' & Hle).
  rewrite erode_interior by (done || lia).
  eapply Qle_trans; [|exact Hle].
  apply fold_min_le_elem. rewrite disk_values_shift.
  apply in_map_iff. by exists d'.
Qed.

Lemma opening_removes_small_blobs_witness :
  (vget 0%Q (applyMorphologicalOpening
               (<[84%nat := 100%Q]> (replicate 169 0%Q)) 13 13 3)
        (6 * 13 + 6) <= 0)%Q.
Proof.
  apply (opening_removes_small_blobs
           (<[84%nat := 100%Q]> (replicate 169 0%Q)) 13 13 3 6 6 0).
  - lia.
  - vm_compute. lia.
  - lia.
  - lia.
  - vm_compute. discriminate.
  - intros [dy dx] Hd.
    exists (if (dy =? 0) && (dx =? 0) then (1, 0) else (0, 0)).
    destruct (disk_offsets_range 3 (dy, dx) Hd) as [Hdy Hdx]. simpl in Hdy, Hdx.
    assert (Hcases : dy = -3 \/ dy = -2 \/ dy = -1 \/ dy = 0 \/ dy = 1 \/
                     dy = 2 \/ dy = 3) by lia.
    assert (Hcases' : dx = -3 \/ dx = -2 \/ dx = -1 \/ dx = 0 \/ dx = 1 \/
                      dx = 2 \/ dx = 3) by lia.
    destruct Hcases as [-> | [-> | [-> | [-> | [-> | [-> | ->]]]]]];
      destruct Hcases' as [-> | [-> | [-> | [-> | [-> | [-> | ->]]]]]];
      (split; [vm_compute; tauto | vm_compute; discriminate]).
Defined.

(** ** A whole call on a small frame *)

(** X22.  On a frame narrower or lower than 7 pixels the filter has no
    noise suppression: in a Running-state call every pixel whose colour
    is at distance 30 or more from its stored estimate ends with mask
    value 1 and is highlighted (red raised by 127, clamped at 255; green
    and blue kept), however isolated it is. *)
Theorem small_frame_motion_is_highlighted
    gl buffer width height stride pixel_stride y x :
  Z.min width height <= 6 ->
  (Z.to_nat (width * height) <= length (pixel_states gl))%nat ->
  motion_mask gl = [] \/
  (Z.to_nat (width * height) <= length (motion_mask gl))%nat ->
  0 <= 3 * width <= stride ->
  (height - 1) * stride + 3 * width <= Z.of_nat (length buffer) ->
  0 <= y < height -> 0 <= x < width ->
  let pixel := pixel_at buffer stride y x in
  let state := vget zero_state (pixel_states gl) (y * width + x) in
  (30 <= colorDistance pixel (bg_rgb state))%Q ->
  let out := filter_impl gl buffer width height stride pixel_stride in
  let new := pixel_at out.2 stride y x in
  vget 0%Q (motion_mask out.1) (y * width + x) = 1%Q /\
  chan (r new) = Z.min 255 (chan (r pixel) + 127) /\
  g new = g pixel /\ b new = b pixel.
Proof.
  intros Hsmall Hps Hmm Hgeo Hbuf Hy Hx. cbv zeta. intros Hfar.
  pose proof (idx_lt width height y x Hy Hx) as Hlt.
  assert (Hne : pixel_states gl <> []).
  { destruct (pixel_states gl); [simpl in Hps; lia | done]. }
  rewrite filter_impl_running by done. cbv zeta.
  cbn [fst snd pixel_states motion_mask].
  rewrite opening_identity_small by done.
  set (d := after_detector gl buffer width height stride).
  assert (Hd : vget 0%Q (motion_mask d) (y * width + x) =
               colorDistance (pixel_at buffer stride y x)
                 (bg_rgb (vget zero_state (pixel_states gl) (y * width + x)))).
  { unfold d. rewrite after_detector_mask by done. unfold next_mask.
    assert (Float.ltb
              (colorDistance (pixel_at buffer stride y x)
                 (bg_rgb (vget zero_state (pixel_states gl) (y * width + x))))
              25 = false) as ->; [|done].
    apply ltb_ge. eapply Qle_trans; [|exact Hfar]. done. }
  assert (Hdlen : (Z.to_nat (width * height) <= length (motion_mask d))%nat).
  { unfold d, after_detector. rewrite (proj2 (detect_lengths _ _ _ _ _)).
    cbn [motion_mask]. unfold alloc_mask.
    destruct Hmm as [-> | Hmm]; [by rewrite length_replicate|].
    destruct (motion_mask gl); [simpl in Hmm; lia | done]. }
  set (mask := applyHysteresisThresholding (motion_mask d) width height 4 30).
  assert (Hone : vget 0%Q mask (y * width + x) = 1%Q).
  { destruct (hysteresis_own_class width height 4 30 (motion_mask d) Hdlen
                y x Hy Hx) as [Hstrong _].
    apply Hstrong. apply leb_le. simpl. by rewrite Hd. }
  split; [done|].
  pose proof (composite_pixels mask width height stride buffer Hgeo Hbuf
                y x Hy Hx) as Hpix.
  cbv zeta in Hpix. rewrite Hone in Hpix.
  change (Float.ltb 0 1) with true in Hpix. rewrite Hpix. cbn [r g b].
  rewrite chan_u8_of_Z, chan_highlight.
  pose proof (chan_range (r (pixel_at buffer stride y x))) as Hc.
  split; [apply Z.mod_small; lia | done].
Qed.

Lemma small_frame_motion_is_highlighted_witness :
  let gl := run 2 1 8 [frame_a] fresh in
  let pixel := pixel_at frame_b 8 0 0 in
  let out := filter_impl gl frame_b 2 1 8 3 in
  let new := pixel_at out.2 8 0 0 in
  vget 0%Q (motion_mask out.1) (0 * 2 + 0) = 1%Q /\
  chan (r new) = Z.min 255 (chan (r pixel) + 127) /\
  g new = g pixel /\ b new = b pixel.
Proof.
  apply (small_frame_motion_is_highlighted
           (run 2 1 8 [frame_a] fresh) frame_b 2 1 8 3 0 0).
  - vm_compute. discriminate.
  - vm_compute. lia.
  - left. reflexivity.
  - lia.
  - vm_compute. discriminate.
  - lia.
  - lia.
  - vm_compute. discriminate.
Defined.
